(** * sessions: a request-scoped adapter over a named session store

    Shallow embedding of [sessions.go] (the Martini session middleware) and
    the properties of its lazy loading, write tracking and save-before-send
    life cycle.

    The Go code mutates one [session] struct per request and calls out to a
    [Store].  The embedding threads that struct through a small state monad
    whose second outcome is a run-time panic (a nil handle dereferenced, or
    a map accessed with a key that cannot be hashed). *)

From Stdlib Require Import Ascii.
From stdpp Require Import gmap strings list fin_maps.

(** ** Dynamic keys and values

    Session keys and values are [interface{}] in the source.  A [key] is a
    key that Go's [==] finds equal to itself, which is what a map needs to
    find an entry again (strings and integers stand for the comparable
    dynamic types); [gokey] below adds the keys for which that fails.
    [VNil] is the nil interface, which is also what a map read of a missing
    key yields. *)

Inductive key :=
  | KString (s : string)
  | KInt (z : Z).

Inductive value :=
  | VNil
  | VString (s : string)
  | VInt (z : Z)
  | VBool (b : bool).

#[global] Instance key_eq_dec : EqDecision key.
Proof. solve_decision. Defined.

#[global] Instance value_eq_dec : EqDecision value.
Proof. solve_decision. Defined.

Definition key_to_sum (k : key) : string + Z :=
  match k with KString s => inl s | KInt z => inr z end.

Definition key_of_sum (x : string + Z) : key :=
  match x with inl s => KString s | inr z => KInt z end.

#[global] Instance key_countable : Countable key.
Proof.
  apply (inj_countable' key_to_sum key_of_sum).
  by intros [].
Defined.

(** Any key that may be handed to a Go map with [interface{}] keys: a
    [key]; a key that [==] does not find equal to itself ([NaN]: a
    floating-point NaN, or an array or struct that holds one); or a key of
    an unhashable dynamic type ([Unhashable]: a slice, a map or a function),
    on which every access to the map panics. *)
Inductive gokey :=
  | Key (k : key)
  | NaN
  | Unhashable.

Coercion Key : key >-> gokey.

(** An [error] is represented by its message; Go's nil error is [None]. *)
Definition error := string.

(** ** Go maps with interface keys

    A [map[interface{}]interface{}]: the entries under keys that equal
    themselves, and the values of the entries stored under [NaN] keys, in
    the order they were added.  No read, assignment or [delete] reaches a
    [NaN] entry; only a [range] yields it. *)
Record gomap := {
  entries : gmap key value;
  nans : list value;
}.

#[global] Instance gomap_empty : Empty gomap := {| entries := ∅; nans := [] |}.

#[global] Instance gomap_lookup : Lookup key value gomap := λ k m, entries m !! k.

#[global] Instance gomap_eq_dec : EqDecision gomap.
Proof. solve_decision. Defined.

(** [m[k]], the key hashed. *)
Definition go_read (k : gokey) (m : gomap) : value :=
  match k with
  | Key k => default VNil (m !! k)
  | NaN | Unhashable => VNil
  end.

(** [m[k] = v], the key hashed. *)
Definition go_assign (k : gokey) (v : value) (m : gomap) : gomap :=
  match k with
  | Key k => {| entries := <[k := v]> (entries m); nans := nans m |}
  | NaN => {| entries := entries m; nans := nans m ++ [v] |}
  | Unhashable => m
  end.

(** [delete(m, k)], the key hashed. *)
Definition go_delete (k : gokey) (m : gomap) : gomap :=
  match k with
  | Key k => {| entries := delete k (entries m); nans := nans m |}
  | NaN | Unhashable => m
  end.

(** The keys a [range] over [m] yields (in the model's order): one per
    entry, so [NaN] once per entry stored under a [NaN] key. *)
Definition go_range (m : gomap) : list gokey :=
  (Key <$> elements (dom (entries m))) ++ replicate (length (nans m)) NaN.

(** [m] once every entry a [delete] can reach is gone. *)
Definition go_nans_only (m : gomap) : gomap :=
  {| entries := ∅; nans := nans m |}.

(** ** The external sessions library

    [sessions.Session], [sessions.Options] and the two flash methods belong
    to the library the adapter wraps; they are not part of this repository's
    source. *)

Module gorilla.

(** Modelled from the spec: the per-session cookie options (path, domain,
    max-age, secure, http-only) of the external library's [Options]
    struct, which [session.Options] fills field by field. *)
Record Options := {
  Path : string;
  Domain : string;
  MaxAge : Z;
  Secure : bool;
  HttpOnly : bool;
}.

(** Modelled from the spec: the external library's session handle, which
    holds a mapping from key to value, a separate ordered flash list per
    flash key, and a settable options pointer ([Opts], nil until set). *)
Record Session := {
  Values : gomap;
  FlashLists : gmap string (list value);
  Opts : option Options;
}.

Definition with_Values (f : gomap → gomap) (h : Session) : Session :=
  {| Values := f (Values h); FlashLists := FlashLists h; Opts := Opts h |}.

Definition with_FlashLists
    (f : gmap string (list value) → gmap string (list value)) (h : Session) : Session :=
  {| Values := Values h; FlashLists := f (FlashLists h); Opts := Opts h |}.

Definition with_Opts (o : option Options) (h : Session) : Session :=
  {| Values := Values h; FlashLists := FlashLists h; Opts := o |}.

(** A session as a store initialises it when there is nothing to load. *)
Definition NewSession : Session :=
  {| Values := ∅; FlashLists := ∅; Opts := None |}.

(** Modelled from the spec: the default flash key of the external
    library, used when the optional variadic key is omitted. *)
Definition flashKey : string := "_flash".

Definition flash_key (vars : list string) : string :=
  match vars with
  | [] => flashKey
  | k :: _ => k
  end.

(** Modelled from the spec: the external library's [AddFlash], which
    appends the value to the flash list identified by the optional key. *)
Definition AddFlash (v : value) (vars : list string) (h : Session) : Session :=
  let k := flash_key vars in
  with_FlashLists (λ fl, <[k := default [] (fl !! k) ++ [v]]> fl) h.

(** Modelled from the spec: the external library's [Flashes], which
    retrieves and clears the flash list for the given key. *)
Definition Flashes (vars : list string) (h : Session) : list value * Session :=
  let k := flash_key vars in
  (default [] (FlashLists h !! k), with_FlashLists (delete k) h).

End gorilla.

(** ** The store interface

    [Store] is the interface of custom session stores.  Within one request
    a store answers a load by name ([Get(request, name)], a possibly nil
    handle together with a possibly nil error) and the persist call of a
    handle ([Save(request, response)], a possibly nil error).  Distinct names
    are taken to yield distinct handles. *)

Class Store := {
  store_Get : string → option gorilla.Session * option error;
  store_Save : string → gorilla.Session → option error;
}.

(** Calls that reach the store during a request, oldest first. *)
Inductive call :=
  | Load (name : string)
  | Persist (name : string) (h : gorilla.Session).

(** ** Options and the adapter state *)

Record Options := {
  Path : string;
  Domain : string;
  MaxAge : Z;
  Secure : bool;
  HttpOnly : bool;
}.

(** The [session] struct.  [ss] maps a name to a handle pointer, so an entry
    can be present and nil ([Some None]); [written] is the dirty map;
    [logger] is the list of lines printed through the request's logger;
    [calls] is the trace of store calls.  The [request] field is only ever
    passed on to the store, and the [store] field is the [Store] instance in
    context. *)
Record session := {
  ss : gmap string (option gorilla.Session);
  written : gmap string bool;
  logger : list string;
  calls : list call;
}.

Definition set_ss (f : gmap string (option gorilla.Session) → gmap string (option gorilla.Session))
    (s : session) : session :=
  {| ss := f (ss s); written := written s; logger := logger s; calls := calls s |}.

Definition set_written (f : gmap string bool → gmap string bool) (s : session) : session :=
  {| ss := ss s; written := f (written s); logger := logger s; calls := calls s |}.

Definition Printf (line : string) (s : session) : session :=
  {| ss := ss s; written := written s; logger := logger s ++ [line]; calls := calls s |}.

Definition record (c : call) (s : session) : session :=
  {| ss := ss s; written := written s; logger := logger s; calls := calls s ++ [c] |}.

(** ** Outcomes and the request monad *)

Inductive outcome (A : Type) :=
  | Done (a : A) (s : session)
  | Panic (s : session).

Arguments Done {A} a s.
Arguments Panic {A} s.

Definition final {A} (r : outcome A) : session :=
  match r with Done _ s => s | Panic s => s end.

Definition M (A : Type) : Type := session → outcome A.

#[global] Instance M_ret : MRet M := λ A a s, Done a s.

#[global] Instance M_bind : MBind M := λ A B f m s,
  match m s with
  | Done a s' => f a s'
  | Panic s' => Panic s'
  end.

Definition gets {A} (f : session → A) : M A := λ s, Done (f s) s.

Definition modify (f : session → session) : M unit := λ s, Done tt (f s).

(** Hashing the key of a map access; an unhashable key panics. *)
Definition hash (k : gokey) : M unit := λ s,
  match k with
  | Unhashable => Panic s
  | Key _ | NaN => Done tt s
  end.

(** Dereferencing a handle pointer; nil panics. *)
Definition deref {A} (p : option A) : M A := λ s,
  match p with
  | Some a => Done a s
  | None => Panic s
  end.

Fixpoint forM_ {A} (l : list A) (body : A → M unit) : M unit :=
  match l with
  | [] => mret tt
  | x :: l' => body x;; forM_ l' body
  end.

(** ** Logging *)

Definition newline : string := String "010"%char EmptyString.

Definition errorFormat (e : error) : string :=
  "[sessions] ERROR! " +:+ e +:+ newline.

Definition check (err : option error) : M unit :=
  match err with
  | Some e => modify (Printf (errorFormat e))
  | None => mret tt
  end.

(** ** The adapter's methods *)

Module session.
Section methods.

Context {St : Store}.

(** [s.ss[name] == nil] holds for a missing entry and for a nil one. *)
Definition Session (name : string) : M (option gorilla.Session) :=
  cur ← gets (λ s, ss s !! name);
  match cur with
  | Some (Some h) => mret (Some h)
  | _ =>
      modify (record (Load name));;
      let '(h, err) := store_Get name in
      modify (set_ss <[name := h]>);;
      check err;;
      gets (λ s, mjoin (ss s !! name))
  end.

(** Writing through the handle pointer held in [ss[name]]. *)
Definition poke (name : string) (h : gorilla.Session) : M unit :=
  modify (set_ss <[name := Some h]>).

Definition mark (name : string) : M unit :=
  modify (set_written <[name := true]>).

Definition Written (name : string) (s : session) : bool :=
  default false (written s !! name).

Definition Get (name : string) (k : gokey) : M value :=
  p ← Session name;
  h ← deref p;
  hash k;;
  mret (go_read k (gorilla.Values h)).

Definition Set_ (name : string) (k : gokey) (val : value) : M unit :=
  p ← Session name;
  h ← deref p;
  hash k;;
  poke name (gorilla.with_Values (go_assign k val) h);;
  mark name.

Definition Delete (name : string) (k : gokey) : M unit :=
  p ← Session name;
  h ← deref p;
  hash k;;
  poke name (gorilla.with_Values (go_delete k) h);;
  mark name.

(** The range visits every entry present when the loop starts; [Delete]
    removes at most the entry being visited. *)
Definition Clear (name : string) : M unit :=
  p ← Session name;
  h ← deref p;
  forM_ (go_range (gorilla.Values h)) (λ k, Delete name k).

Definition AddFlash (name : string) (val : value) (vars : list string) : M unit :=
  p ← Session name;
  h ← deref p;
  poke name (gorilla.AddFlash val vars h);;
  mark name.

Definition Flashes (name : string) (vars : list string) : M (list value) :=
  mark name;;
  p ← Session name;
  h ← deref p;
  let '(flashes, h') := gorilla.Flashes vars h in
  poke name h';;
  mret flashes.

Definition Options (name : string) (options : Options) : M unit :=
  p ← Session name;
  h ← deref p;
  poke name
    (gorilla.with_Opts
       (Some {| gorilla.Path := Path options;
                gorilla.Domain := Domain options;
                gorilla.MaxAge := MaxAge options;
                gorilla.Secure := Secure options;
                gorilla.HttpOnly := HttpOnly options |}) h).

End methods.
End session.

Section handle.

Context {St : Store}.

(** Modelled from the spec: the handle's [Save(request, response)], which
    has the store persist the session and returns the store's error.  It
    reaches the store through the handle, so a nil handle panics. *)
Definition Save (name : string) (p : option gorilla.Session) : M (option error) :=
  h ← deref p;
  modify (record (Persist name h));;
  mret (store_Save name h).

End handle.

(** ** A request as the handler chain sees it *)

(** One call made by downstream handler code on the injected service. *)
Inductive op :=
  | OpGet (name : string) (k : gokey)
  | OpSet (name : string) (k : gokey) (val : value)
  | OpDelete (name : string) (k : gokey)
  | OpClear (name : string)
  | OpAddFlash (name : string) (val : value) (vars : list string)
  | OpFlashes (name : string) (vars : list string)
  | OpOptions (name : string) (options : Options).

Definition op_name (o : op) : string :=
  match o with
  | OpGet n _ | OpSet n _ _ | OpDelete n _ | OpClear n
  | OpAddFlash n _ _ | OpFlashes n _ | OpOptions n _ => n
  end.

(** The session struct as [Sessions] builds it: two empty maps. *)
Definition new_session : session :=
  {| ss := ∅; written := ∅; logger := []; calls := [] |}.

Section middleware.

Context {St : Store}.

Definition exec (o : op) : M unit :=
  match o with
  | OpGet n k => session.Get n k;; mret tt
  | OpSet n k v => session.Set_ n k v
  | OpDelete n k => session.Delete n k
  | OpClear n => session.Clear n
  | OpAddFlash n v vars => session.AddFlash n v vars
  | OpFlashes n vars => session.Flashes n vars;; mret tt
  | OpOptions n o => session.Options n o
  end.

(** The rest of the handler chain ([c.Next()]), as the calls it makes. *)
Definition Next (ops : list op) : M unit := forM_ ops exec.

(** The body of the loop in the function passed to [rw.Before]. *)
Definition save_if_written (n : string) : M unit :=
  w ← gets (session.Written n);
  if (w : bool) then
    p ← session.Session n;
    err ← Save n p;
    check err
  else mret tt.

(** The function passed to [rw.Before]: it ranges over the names in [ss]
    (in the map's own order) and saves the written ones. *)
Definition Before : M unit :=
  names ← gets (λ s, elements (dom (ss s)));
  forM_ names save_if_written.

(** [Sessions(store)] serving one request under the usual schedule: the
    handler chain makes the calls [sent_before] the response is first
    written, at which point the response writer runs [Before], and may make
    further calls after; the first panic ends the request.  The source only
    registers [Before] with the response writer; [serve] below covers every
    other schedule. *)
Definition Sessions (sent_before sent_after : list op) : outcome unit :=
  (Next sent_before;; Before;; Next sent_after) new_session.

(** What happens to the adapter during a request, one event at a time: a
    call by handler code, or a write of the response header, before which
    the response writer runs the registered [Before]. *)
Inductive event :=
  | Call (o : op)
  | WriteHeader.

(** A call or a run of the hook that panics leaves the state it had
    reached. *)
Definition step (s : session) (e : event) : session :=
  match e with
  | Call o => final (exec o s)
  | WriteHeader => final (Before s)
  end.

(** A request under any schedule: the events in order, from the new session
    struct.  What follows a panic in the list is what the code that
    recovered it does; a request that dies of a panic is the list that ends
    there. *)
Definition serve (evs : list event) : session := foldl step new_session evs.

End middleware.

(** The calls of a schedule. *)
Definition called (evs : list event) : list op :=
  omap (λ e, match e with Call o => Some o | WriteHeader => None end) evs.

(** Names loaded from, and persisted to, the store, in call order. *)
Definition loads (s : session) : list string :=
  omap (λ c, match c with Load n => Some n | Persist _ _ => None end) (calls s).

Definition persisted (s : session) : list string :=
  omap (λ c, match c with Persist n _ => Some n | Load _ => None end) (calls s).

(** ** Some stores *)

(** A store with nothing to load: every name gets a new, empty session. *)
Definition emptyStore : Store :=
  {| store_Get := λ _, (Some gorilla.NewSession, None);
     store_Save := λ _ _, None |}.


(** A store that refuses a name and returns a nil handle with the error. *)
Definition nilStore : Store :=
  {| store_Get := λ _, (None, Some "sessions: invalid character in cookie name");
     store_Save := λ _ _, None |}.

(** A store that loads, for every name, a session carrying one value and
    one flash message left by an earlier request. *)
Definition carriedSession : gorilla.Session :=
  {| gorilla.Values := {| entries := {[ KString "user" := VString "ann" ]}; nans := [] |};
     gorilla.FlashLists := {[ gorilla.flashKey := [VString "saved"] ]};
     gorilla.Opts := None |}.

Definition carryingStore : Store :=
  {| store_Get := λ _, (Some carriedSession, None);
     store_Save := λ _ _, None |}.

(** A store that loads, for every name, a session holding two keys that
    equal themselves and one entry stored under a NaN key. *)
Definition basketSession : gorilla.Session :=
  {| gorilla.Values :=
       {| entries := {[ KString "user" := VString "ann"; KString "lang" := VString "en" ]};
          nans := [VInt 7] |};
     gorilla.FlashLists := ∅;
     gorilla.Opts := None |}.

Definition basketStore : Store :=
  {| store_Get := λ _, (Some basketSession, None);
     store_Save := λ _ _, None |}.

(** ** Closed forms

    What a lazy load and each call amount to, as plain functions of the
    state; the laws below prove them equal to the methods above. *)

Section closed_forms.

Context {St : Store}.

(** [resolve n s] is the handle pointer [Session n] returns from [s] and
    [touch n s] the state it leaves: untouched when [n] is already loaded,
    otherwise after one store call, the assignment and the logging of the
    error. *)
Definition resolve (n : string) (s : session) : option gorilla.Session :=
  match ss s !! n with
  | Some (Some h) => Some h
  | _ => (store_Get n).1
  end.

Definition log_error (err : option error) (s : session) : session :=
  match err with
  | Some e => Printf (errorFormat e) s
  | None => s
  end.

Definition touch (n : string) (s : session) : session :=
  match ss s !! n with
  | Some (Some _) => s
  | _ => log_error (store_Get n).2 (set_ss <[n := (store_Get n).1]> (record (Load n) s))
  end.

Definition mark_if (b : bool) (n : string) (s : session) : session :=
  if b then set_written <[n := true]> s else s.

(** The handle a call leaves behind, given the handle it found. *)
Definition effect (o : op) (h : gorilla.Session) : gorilla.Session :=
  match o with
  | OpGet _ _ => h
  | OpSet _ k v => gorilla.with_Values (go_assign k v) h
  | OpDelete _ k => gorilla.with_Values (go_delete k) h
  | OpClear _ => gorilla.with_Values go_nans_only h
  | OpAddFlash _ v vars => gorilla.AddFlash v vars h
  | OpFlashes _ vars => (gorilla.Flashes vars h).2
  | OpOptions _ o =>
      gorilla.with_Opts
        (Some {| gorilla.Path := Path o;
                 gorilla.Domain := Domain o;
                 gorilla.MaxAge := MaxAge o;
                 gorilla.Secure := Secure o;
                 gorilla.HttpOnly := HttpOnly o |}) h
  end.

(** Whether a call that finds handle [h] sets the written flag. *)
Definition dirties (o : op) (h : gorilla.Session) : bool :=
  match o with
  | OpGet _ _ | OpOptions _ _ => false
  | OpClear _ => bool_decide (gorilla.Values h ≠ ∅)
  | OpSet _ _ _ | OpDelete _ _ | OpAddFlash _ _ _ | OpFlashes _ _ => true
  end.

(** Whether the key a call accesses the map with, if any, can be hashed. *)
Definition hashable (o : op) : bool :=
  match o with
  | OpGet _ Unhashable | OpSet _ Unhashable _ | OpDelete _ Unhashable => false
  | _ => true
  end.

(** The handle a call gets to work on: none when the load yields nil or the
    key cannot be hashed. *)
Definition usable (o : op) (s : session) : option gorilla.Session :=
  if hashable o then resolve (op_name o) s else None.

(** Whether a call sets the written flag before it touches the handle. *)
Definition premarks (o : op) : bool :=
  match o with
  | OpFlashes _ _ => true
  | _ => false
  end.

(** [marks o n s]: the call [o], made in state [s], sets the written flag
    of [n]. *)
Definition marks (o : op) (n : string) (s : session) : bool :=
  bool_decide (op_name o = n) &&
  match resolve n s with
  | Some h => dirties o h
  | None => premarks o
  end.

End closed_forms.

(** The calls the interface documents as changing a session. *)
Definition mutating (o : op) : bool :=
  match o with
  | OpGet _ _ | OpOptions _ _ => false
  | OpSet _ _ _ | OpDelete _ _ | OpClear _ | OpAddFlash _ _ _ | OpFlashes _ _ => true
  end.

(** The names a list of calls refers to. *)
Definition op_names (ops : list op) : list string := op_name <$> ops.

(** The line a store call makes the adapter log, if any. *)
Definition call_error {St : Store} (c : call) : option string :=
  match c with
  | Load n => errorFormat <$> (store_Get n).2
  | Persist n h => errorFormat <$> store_Save n h
  end.

(** The adapter logs exactly what its store calls answered, in order. *)
Definition logged {St : Store} (s : session) : Prop :=
  logger s = omap call_error (calls s).

(** How often the store was asked to load [n]. *)
Definition load_count (n : string) (s : session) : nat :=
  length (filter (λ m, m = n) (loads s)).


(** The bookkeeping of loads for one name: never asked while the name is
    missing from [ss], asked once while it holds a handle, and a nil entry
    only where the store answers nil. *)
Definition load_record {St : Store} (n : string) (s : session) : Prop :=
  match ss s !! n with
  | None => load_count n s = 0
  | Some (Some _) => load_count n s = 1
  | Some None => (store_Get n).1 = None
  end.

(** The persist calls the hook's loop makes over the names [l] from state
    [s]: one per name that holds a handle and is written, with that handle. *)
Definition saves (s : session) (l : list string) : list call :=
  omap (λ n, match ss s !! n with
             | Some (Some h) =>
                 if default false (written s !! n) then Some (Persist n h) else None
             | _ => None
             end) l.

(** [nonnil s]: every entry of [ss] holds a handle, none a nil pointer. *)
Definition nonnil (s : session) : Prop := ∀ m, ss s !! m ≠ Some None.

(** * Properties *)

Ltac unfold_M :=
  unfold mbind, M_bind, mret, M_ret, gets, modify, deref, check.

Section load_laws.

Context {St : Store}.

Lemma ss_log_error err s : ss (log_error err s) = ss s.
Proof. by destruct err. Qed.

Lemma written_log_error err s : written (log_error err s) = written s.
Proof. by destruct err. Qed.

Lemma calls_log_error err s : calls (log_error err s) = calls s.
Proof. by destruct err. Qed.

Lemma Session_eq n s : session.Session n s = Done (resolve n s) (touch n s).
Proof.
  unfold session.Session, resolve, touch. unfold_M.
  destruct (ss s !! n) as [[h|]|] eqn:E; try done;
    destruct (store_Get n) as [p [e|]]; simpl;
    by rewrite lookup_insert_eq.
Qed.

Lemma written_touch n s : written (touch n s) = written s.
Proof.
  unfold touch. destruct (ss s !! n) as [[h|]|]; try done;
    by rewrite written_log_error.
Qed.

Lemma lookup_touch_eq n s : ss (touch n s) !! n = Some (resolve n s).
Proof.
  unfold touch, resolve. destruct (ss s !! n) as [[h|]|] eqn:E; try done;
    rewrite ss_log_error; simpl; by rewrite lookup_insert_eq.
Qed.

Lemma lookup_touch_ne n m s : n ≠ m → ss (touch n s) !! m = ss s !! m.
Proof.
  intros Hne. unfold touch. destruct (ss s !! n) as [[h|]|]; try done;
    rewrite ss_log_error; simpl; by rewrite lookup_insert_ne.
Qed.

Lemma dom_touch n s : dom (ss (touch n s)) = {[n]} ∪ dom (ss s).
Proof.
  unfold touch. destruct (ss s !! n) as [[h|]|] eqn:E;
    rewrite ?ss_log_error; simpl; rewrite ?dom_insert_L; try done.
  apply elem_of_dom_2 in E. symmetry.
  by apply subseteq_union_1_L, singleton_subseteq_l.
Qed.

Lemma Session_Done n s p s0 :
  session.Session n s = Done p s0 ↔ resolve n s = p ∧ touch n s = s0.
Proof.
  rewrite Session_eq. split; [by intros [= -> ->]|by intros [-> ->]].
Qed.

Lemma Session_nil n s :
  resolve n s = None → session.Session n s = Done None (touch n s).
Proof. intros E. by rewrite Session_eq, E. Qed.

Lemma touch_loaded n s h : ss s !! n = Some (Some h) → touch n s = s.
Proof. intros E. unfold touch. by rewrite E. Qed.

Lemma resolve_loaded n s h : ss s !! n = Some (Some h) → resolve n s = Some h.
Proof. intros E. unfold resolve. by rewrite E. Qed.

Lemma Written_touch n m s : session.Written m (touch n s) = session.Written m s.
Proof. unfold session.Written. by rewrite written_touch. Qed.

(** Marking commutes with loading: the load never reads [written]. *)
Lemma touch_set_written f n s : touch n (set_written f s) = set_written f (touch n s).
Proof.
  unfold touch. simpl. destruct (ss s !! n) as [[h|]|]; try done;
    by destruct (store_Get n).2.
Qed.

Lemma resolve_set_written f n s : resolve n (set_written f s) = resolve n s.
Proof. done. Qed.

Lemma set_ss_id f s : f (ss s) = ss s → set_ss f s = s.
Proof. intros E. destruct s. unfold set_ss. simpl in *. by rewrite E. Qed.

Lemma poke_resolved n s h :
  resolve n s = Some h → set_ss <[n := Some h]> (touch n s) = touch n s.
Proof.
  intros E. apply set_ss_id, insert_id. by rewrite lookup_touch_eq, E.
Qed.

End load_laws.

(** ** Each method in closed form *)

Section method_laws.

Context {St : Store}.


Lemma lookup_go_assign_eq (k : key) v m : go_assign k v m !! k = Some v.
Proof. apply (lookup_insert_eq (M := gmap key)). Qed.

Lemma lookup_go_assign_ne (k k' : key) v m : k ≠ k' → go_assign k v m !! k' = m !! k'.
Proof. apply (lookup_insert_ne (M := gmap key)). Qed.


Lemma lookup_go_delete_ne (k k' : key) m : k ≠ k' → go_delete k m !! k' = m !! k'.
Proof. apply (lookup_delete_ne (M := gmap key)). Qed.

Lemma lookup_go_assign_NaN (k : key) v m : go_assign NaN v m !! k = m !! k.
Proof. done. Qed.

Ltac run_method :=
  intros; unfold_M; unfold hash; rewrite Session_eq;
  match goal with |- context [resolve ?n ?s] => destruct (resolve n s) end; done.

(** The three calls that access the map, for any key. *)
Lemma Get_any n (k : gokey) s :
  session.Get n k s =
  match resolve n s, k with
  | Some h, (Key _ | NaN) => Done (go_read k (gorilla.Values h)) (touch n s)
  | _, _ => Panic (touch n s)
  end.
Proof.
  unfold session.Get. unfold_M. unfold hash. rewrite Session_eq.
  by destruct (resolve n s), k.
Qed.

Lemma Set_any n (k : gokey) v s :
  session.Set_ n k v s =
  match resolve n s, k with
  | Some h, (Key _ | NaN) =>
      Done tt (set_written <[n := true]>
                 (set_ss <[n := Some (gorilla.with_Values (go_assign k v) h)]> (touch n s)))
  | _, _ => Panic (touch n s)
  end.
Proof.
  unfold session.Set_, session.poke, session.mark. unfold_M. unfold hash.
  rewrite Session_eq. by destruct (resolve n s), k.
Qed.

Lemma Delete_any n (k : gokey) s :
  session.Delete n k s =
  match resolve n s, k with
  | Some h, (Key _ | NaN) =>
      Done tt (set_written <[n := true]>
                 (set_ss <[n := Some (gorilla.with_Values (go_delete k) h)]> (touch n s)))
  | _, _ => Panic (touch n s)
  end.
Proof.
  unfold session.Delete, session.poke, session.mark. unfold_M. unfold hash.
  rewrite Session_eq. by destruct (resolve n s), k.
Qed.

(** The same for a key that equals itself. *)
Lemma Get_eq n (k : key) s :
  session.Get n k s =
  match resolve n s with
  | Some h => Done (default VNil (gorilla.Values h !! k)) (touch n s)
  | None => Panic (touch n s)
  end.
Proof. rewrite Get_any. by destruct (resolve n s). Qed.

Lemma Set_eq n (k : key) v s :
  session.Set_ n k v s =
  match resolve n s with
  | Some h =>
      Done tt (set_written <[n := true]>
                 (set_ss <[n := Some (gorilla.with_Values (go_assign k v) h)]> (touch n s)))
  | None => Panic (touch n s)
  end.
Proof. rewrite Set_any. by destruct (resolve n s). Qed.

Lemma Delete_eq n (k : key) s :
  session.Delete n k s =
  match resolve n s with
  | Some h =>
      Done tt (set_written <[n := true]>
                 (set_ss <[n := Some (gorilla.with_Values (go_delete k) h)]> (touch n s)))
  | None => Panic (touch n s)
  end.
Proof. rewrite Delete_any. by destruct (resolve n s). Qed.

Lemma AddFlash_eq n v vars s :
  session.AddFlash n v vars s =
  match resolve n s with
  | Some h =>
      Done tt (set_written <[n := true]>
                 (set_ss <[n := Some (gorilla.AddFlash v vars h)]> (touch n s)))
  | None => Panic (touch n s)
  end.
Proof. unfold session.AddFlash, session.poke, session.mark. run_method. Qed.

Lemma Flashes_eq n vars s :
  session.Flashes n vars s =
  match resolve n s with
  | Some h =>
      Done (gorilla.Flashes vars h).1
           (set_written <[n := true]>
              (set_ss <[n := Some (gorilla.Flashes vars h).2]> (touch n s)))
  | None => Panic (set_written <[n := true]> (touch n s))
  end.
Proof.
  unfold session.Flashes, session.poke, session.mark. unfold_M.
  rewrite Session_eq, touch_set_written, resolve_set_written.
  by destruct (resolve n s).
Qed.

Lemma Options_eq n o s :
  session.Options n o s =
  match resolve n s with
  | Some h => Done tt (set_ss <[n := Some (effect (OpOptions n o) h)]> (touch n s))
  | None => Panic (touch n s)
  end.
Proof. unfold session.Options, session.poke. run_method. Qed.

End method_laws.

(** ** The loop of [Clear] *)

Section clear_laws.

Context {St : Store}.

Lemma go_delete_all (l : list gokey) :
  ∀ m, (∀ k : key, k ∈ dom (entries m) → Key k ∈ l) →
  foldl (λ m k, go_delete k m) m l = go_nans_only m.
Proof.
  induction l as [|k l IH]; intros m Hdom; simpl.
  - destruct m as [e ns]. unfold go_nans_only. simpl in *. f_equal.
    apply map_eq. intros k. rewrite lookup_empty. apply not_elem_of_dom.
    by intros ?%Hdom%not_elem_of_nil.
  - destruct k as [k| |]; simpl.
    + rewrite IH; [done|]. simpl. intros k'. rewrite dom_delete_L.
      intros [Hk' Hne]%elem_of_difference.
      apply Hdom in Hk' as [[= ->]|?]%elem_of_cons; [|done].
      destruct Hne. by apply elem_of_singleton.
    + apply IH. intros k' Hk'. by apply Hdom in Hk' as [?|?]%elem_of_cons.
    + apply IH. intros k' Hk'. by apply Hdom in Hk' as [?|?]%elem_of_cons.
Qed.

Lemma elem_of_go_range_Key (k : key) m : Key k ∈ go_range m ↔ k ∈ dom (entries m).
Proof.
  unfold go_range. rewrite elem_of_app, list_elem_of_fmap. split.
  - intros [(k' & [= ->] & Hk)|Hk]; [by apply elem_of_elements|].
    by apply elem_of_replicate in Hk as [? _].
  - intros Hk. left. exists k. split; [done|]. by apply elem_of_elements.
Qed.

Lemma Unhashable_not_in_go_range m : Unhashable ∉ go_range m.
Proof.
  unfold go_range. rewrite elem_of_app, list_elem_of_fmap.
  intros [(k' & ? & _)|Hk]; [done|]. by apply elem_of_replicate in Hk as [? _].
Qed.

Lemma go_delete_range m : foldl (λ m k, go_delete k m) m (go_range m) = go_nans_only m.
Proof. apply go_delete_all. intros k. by rewrite elem_of_go_range_Key. Qed.

Lemma go_range_nil m : go_range m = [] ↔ m = ∅.
Proof.
  unfold go_range. split.
  - intros [He Hn]%app_eq_nil. destruct m as [e ns]. simpl in *.
    apply fmap_nil_inv in He. destruct ns; [|done].
    unfold empty, gomap_empty. f_equal.
    by apply dom_empty_iff_L, leibniz_equiv, elements_empty_inv.
  - intros ->. simpl. by rewrite dom_empty_L, elements_empty.
Qed.

Lemma with_Values_empty h :
  gorilla.Values h = ∅ → gorilla.with_Values go_nans_only h = h.
Proof. destruct h. unfold gorilla.with_Values. simpl. by intros ->. Qed.

Lemma Clear_loop n l :
  ∀ s h, ss s !! n = Some (Some h) → l ≠ [] → Unhashable ∉ l →
  forM_ l (λ k, session.Delete n k) s =
  Done tt (set_written <[n := true]>
             (set_ss <[n := Some (gorilla.with_Values
                                    (λ m, foldl (λ m k, go_delete k m) m l) h)]> s)).
Proof.
  induction l as [|k l IH]; intros s h E Hne Hl; [done|].
  simpl. unfold mbind, M_bind.
  rewrite Delete_any, (resolve_loaded _ _ _ E), (touch_loaded _ _ _ E).
  assert (k ≠ Unhashable) as Hk by (intros ->; apply Hl, list_elem_of_here).
  assert (Unhashable ∉ l) as Hl' by (intros ?; by apply Hl, list_elem_of_further).
  assert (match k with
          | Key _ | NaN =>
              Done tt (set_written <[n := true]>
                 (set_ss <[n := Some (gorilla.with_Values (go_delete k) h)]> s))
          | Unhashable => Panic s
          end =
          Done tt (set_written <[n := true]>
                 (set_ss <[n := Some (gorilla.with_Values (go_delete k) h)]> s))) as ->
    by (by destruct k).
  destruct l as [|k' l']; [done|].
  rewrite (IH _ (gorilla.with_Values (go_delete k) h)); [| |done|done].
  - f_equal. destruct s. unfold set_written, set_ss. simpl.
    f_equal; by rewrite insert_insert_eq.
  - simpl. by rewrite lookup_insert_eq.
Qed.

Lemma Clear_eq n s :
  session.Clear n s =
  match resolve n s with
  | Some h =>
      Done tt (mark_if (bool_decide (gorilla.Values h ≠ ∅)) n
                 (set_ss <[n := Some (gorilla.with_Values go_nans_only h)]> (touch n s)))
  | None => Panic (touch n s)
  end.
Proof.
  unfold session.Clear. unfold_M. rewrite Session_eq.
  destruct (resolve n s) as [h|] eqn:E; [|done].
  destruct (decide (gorilla.Values h = ∅)) as [Hv|Hv].
  - rewrite (proj2 (go_range_nil _) Hv). simpl.
    rewrite bool_decide_false by (by intros []). simpl.
    by rewrite with_Values_empty, poke_resolved.
  - rewrite (Clear_loop n _ _ h).
    + rewrite bool_decide_true by done.
      unfold gorilla.with_Values, mark_if. by rewrite go_delete_range.
    + by rewrite lookup_touch_eq, E.
    + by intros ?%go_range_nil.
    + apply Unhashable_not_in_go_range.
Qed.

End clear_laws.

(** ** Every call in one closed form *)

Section exec_laws.

Context {St : Store}.

Lemma usable_Some o s h : usable o s = Some h → resolve (op_name o) s = Some h.
Proof. unfold usable. by destruct (hashable o). Qed.

Lemma exec_eq o s :
  exec o s =
  let n := op_name o in
  match usable o s with
  | Some h => Done tt (mark_if (dirties o h) n (set_ss <[n := Some (effect o h)]> (touch n s)))
  | None => Panic (mark_if (premarks o) n (touch n s))
  end.
Proof.
  unfold usable.
  destruct o as [n k|n k v|n k|n|n v vars|n vars|n o]; simpl.
  - unfold mbind, M_bind, mret, M_ret. rewrite Get_any.
    destruct (resolve n s) eqn:E, k; try done; by rewrite poke_resolved.
  - rewrite Set_any. by destruct (resolve n s), k.
  - rewrite Delete_any. by destruct (resolve n s), k.
  - rewrite Clear_eq. by destruct (resolve n s).
  - rewrite AddFlash_eq. by destruct (resolve n s).
  - unfold mbind, M_bind, mret, M_ret. rewrite Flashes_eq.
    by destruct (resolve n s).
  - rewrite Options_eq. by destruct (resolve n s).
Qed.

End exec_laws.

(** ** Reading back what a call wrote *)

Section verbs.

Context {St : Store}.

Lemma lookup_poked n h f s :
  ss (set_written f (set_ss <[n := Some h]> s)) !! n = Some (Some h).
Proof. simpl. by rewrite lookup_insert_eq. Qed.

Lemma Get_loaded n (k : key) s h :
  ss s !! n = Some (Some h) →
  session.Get n k s = Done (default VNil (gorilla.Values h !! k)) s.
Proof.
  intros E. by rewrite Get_eq, (resolve_loaded _ _ _ E), (touch_loaded _ _ _ E).
Qed.

Lemma Written_marked n f s :
  session.Written n (set_written <[n := true]> (set_ss f s)) = true.
Proof. unfold session.Written. simpl. by rewrite lookup_insert_eq. Qed.

(** C2, amended.  For a key that equals itself: after [Set(n, key, value)],
    [Get(n, key)] returns [value] and [Written(n)] is true.  With such a key
    [Set] returns unless the lazy load yields a nil handle for [n], the one
    case in which it panics. *)
Theorem Set_then_Get (n : string) (k : key) (v : value) (s : session) :
  match session.Set_ n k v s with
  | Done _ s' => session.Get n k s' = Done v s' ∧ session.Written n s' = true
  | Panic s' => session.Session n s = Done None s'
  end.
Proof.
  rewrite Set_eq. destruct (resolve n s) as [h|] eqn:E; [|by apply Session_nil].
  split.
  - rewrite (Get_loaded _ _ _ _ (lookup_poked _ _ _ _)).
    cbn [gorilla.Values gorilla.with_Values]. by rewrite lookup_go_assign_eq.
  - apply Written_marked.
Qed.



(** C9.  Every call of [Flashes(n)] leaves [Written(n)] true, whatever the
    flash list held and even when the call panics on a nil handle. *)
Theorem Flashes_marks (n : string) (vars : list string) (s : session) :
  session.Written n (final (session.Flashes n vars s)) = true.
Proof.
  rewrite Flashes_eq. destruct (resolve n s); simpl.
  - apply Written_marked.
  - unfold session.Written. simpl. by rewrite lookup_insert_eq.
Qed.

(** [Flashes] on an empty flash list returns the empty sequence and marks
    all the same. *)
Lemma Flashes_empty_marks n vars s h :
  resolve n s = Some h →
  gorilla.FlashLists h !! gorilla.flash_key vars = None →
  ∃ s', session.Flashes n vars s = Done [] s' ∧ session.Written n s' = true.
Proof.
  intros E Hf. rewrite Flashes_eq, E. simpl. rewrite Hf. eexists. split; [done|].
  apply Written_marked.
Qed.

End verbs.

(** ** Runs of calls *)

Section runs.

Context {St : Store}.

Lemma final_bind {A B} (m : M A) (f : A → M B) s :
  final ((m ≫= f) s) =
  match m s with
  | Done a s' => final (f a s')
  | Panic s' => s'
  end.
Proof. unfold mbind, M_bind. by destruct (m s). Qed.

(** A property kept by every iteration, panicking or not, holds of the
    state in which the loop ends. *)
Lemma forM_final_ind {A} (P : session → Prop) (l : list A) (body : A → M unit) :
  (∀ x s, x ∈ l → P s → P (final (body x s))) →
  ∀ s, P s → P (final (forM_ l body s)).
Proof.
  induction l as [|x l IH]; intros Hstep s Hs; [done|].
  simpl. rewrite final_bind.
  specialize (Hstep x s (list_elem_of_here _ _) Hs) as Hx.
  destruct (body x s) as [[] s'|s']; [|done].
  apply IH; [|done]. intros y t Hy. apply Hstep. by apply list_elem_of_further.
Qed.

(** A property kept by every iteration that returns holds when the loop
    returns. *)
Lemma forM_Done_ind {A} (P : session → Prop) (l : list A) (body : A → M unit) :
  (∀ x s s', x ∈ l → P s → body x s = Done tt s' → P s') →
  ∀ s s', P s → forM_ l body s = Done tt s' → P s'.
Proof.
  induction l as [|x l IH]; intros Hstep s s' Hs Hrun; simpl in Hrun.
  - unfold mret, M_ret in Hrun. by inversion Hrun; subst.
  - unfold mbind, M_bind in Hrun.
    destruct (body x s) as [[] s1|s1] eqn:E; [|done].
    eapply IH; [|by eapply (Hstep x s s1 (list_elem_of_here _ _))|done].
    intros y t t' Hy. apply Hstep. by apply list_elem_of_further.
Qed.

Lemma final_exec o s :
  final (exec o s) =
  let n := op_name o in
  match usable o s with
  | Some h => mark_if (dirties o h) n (set_ss <[n := Some (effect o h)]> (touch n s))
  | None => mark_if (premarks o) n (touch n s)
  end.
Proof. rewrite exec_eq. simpl. by destruct (usable o s). Qed.

Lemma calls_mark_if b n s : calls (mark_if b n s) = calls s.
Proof. by destruct b. Qed.

Lemma ss_mark_if b n s : ss (mark_if b n s) = ss s.
Proof. by destruct b. Qed.

Lemma logger_mark_if b n s : logger (mark_if b n s) = logger s.
Proof. by destruct b. Qed.

Lemma Written_mark_if b n m s :
  session.Written m (mark_if b n s) = (b && bool_decide (n = m)) || session.Written m s.
Proof.
  unfold session.Written. destruct b; simpl; [|done].
  case_bool_decide as E.
  - subst. by rewrite lookup_insert_eq.
  - by rewrite lookup_insert_ne.
Qed.

Lemma persisted_touch n s : persisted (touch n s) = persisted s.
Proof.
  unfold touch, persisted. destruct (ss s !! n) as [[h|]|]; try done;
    rewrite calls_log_error; simpl; by rewrite omap_app, app_nil_r.
Qed.

Lemma persisted_exec o s : persisted (final (exec o s)) = persisted s.
Proof.
  rewrite final_exec. simpl. unfold persisted.
  destruct (usable o s); rewrite calls_mark_if; apply persisted_touch.
Qed.

Lemma persisted_Next ops s : persisted (final (Next ops s)) = persisted s.
Proof.
  apply (forM_final_ind (λ t, persisted t = persisted s)); [|done].
  intros o t _ <-. apply persisted_exec.
Qed.

(** The written flag of [m] after one returning call. *)
Lemma Written_exec o s s' m :
  exec o s = Done tt s' →
  session.Written m s' = marks o m s || session.Written m s.
Proof.
  rewrite exec_eq. simpl. destruct (usable o s) as [h|] eqn:E; [|done].
  apply usable_Some in E.
  intros [= <-]. rewrite Written_mark_if. unfold session.Written at 1. simpl.
  rewrite written_touch. fold (session.Written m s). f_equal.
  unfold marks. case_bool_decide as Hn.
  - subst. rewrite E. by rewrite andb_true_r.
  - by rewrite andb_false_r.
Qed.

(** No returning call leaves a nil entry behind. *)
Lemma nonnil_exec o s s' : nonnil s → exec o s = Done tt s' → nonnil s'.
Proof.
  rewrite exec_eq. simpl. destruct (usable o s) as [h|]; [|done].
  intros Hs [= <-] m. rewrite ss_mark_if. simpl.
  destruct (decide (op_name o = m)) as [<-|Hne].
  - by rewrite lookup_insert_eq.
  - rewrite lookup_insert_ne, lookup_touch_ne by done. apply Hs.
Qed.

(** The entry of a name after one call, returning or panicking. *)
Lemma lookup_final_exec_eq o s :
  ∃ p, ss (final (exec o s)) !! op_name o = Some p ∧
       (is_Some p ↔ is_Some (resolve (op_name o) s)).
Proof.
  rewrite final_exec. simpl. destruct (usable o s) as [h|] eqn:E.
  - apply usable_Some in E. rewrite ss_mark_if. simpl. rewrite lookup_insert_eq, E.
    eexists. split; [done|]. split; by eexists.
  - rewrite ss_mark_if, lookup_touch_eq. by eexists.
Qed.

Lemma lookup_final_exec_ne o s n :
  op_name o ≠ n → ss (final (exec o s)) !! n = ss s !! n.
Proof.
  intros Hne. rewrite final_exec. simpl.
  destruct (usable o s); rewrite ss_mark_if; simpl;
    rewrite ?lookup_insert_ne by done; by apply lookup_touch_ne.
Qed.

Lemma nonnil_new : nonnil new_session.
Proof. intros m. simpl. by rewrite lookup_empty. Qed.

Lemma nonnil_Next ops s s' : nonnil s → Next ops s = Done tt s' → nonnil s'.
Proof.
  apply (forM_Done_ind nonnil). intros o t t' _. apply nonnil_exec.
Qed.

End runs.

(** ** The hook that runs before the response is sent *)

Section hook.

Context {St : Store}.

Lemma save_if_written_loaded n s h :
  ss s !! n = Some (Some h) →
  save_if_written n s =
  Done tt (if session.Written n s
           then log_error (store_Save n h) (record (Persist n h) s)
           else s).
Proof.
  intros E. unfold save_if_written, Save. unfold_M.
  destruct (session.Written n s); [|done].
  rewrite Session_eq, (resolve_loaded _ _ _ E), (touch_loaded _ _ _ E).
  by destruct (store_Save n h).
Qed.

Lemma Before_loop l :
  ∀ s, nonnil s → (∀ n, n ∈ l → n ∈ dom (ss s)) →
  ∃ s', forM_ l save_if_written s = Done tt s' ∧
        ss s' = ss s ∧ written s' = written s ∧ loads s' = loads s ∧
        (logged s → logged s') ∧
        persisted s' = persisted s ++ filter (λ n, session.Written n s = true) l.
Proof.
  induction l as [|n l IH]; intros s Hnn Hdom.
  - exists s. by rewrite app_nil_r.
  - assert (∃ h, ss s !! n = Some (Some h)) as [h E].
    { destruct (ss s !! n) as [[h|]|] eqn:E; [by eexists|by destruct (Hnn n)|].
      apply not_elem_of_dom in E. destruct E. apply Hdom, list_elem_of_here. }
    simpl. unfold mbind, M_bind at 1. rewrite (save_if_written_loaded _ _ _ E).
    set (s1 := if session.Written n s then _ else s).
    assert (ss s1 = ss s ∧ written s1 = written s ∧ loads s1 = loads s ∧
            (logged s → logged s1) ∧
            persisted s1 = persisted s ++ (if session.Written n s then [n] else []))
      as (Hss & Hw & Hl & Hlog & Hp).
    { subst s1. destruct (session.Written n s).
      - rewrite ss_log_error, written_log_error. unfold loads, persisted, logged.
        rewrite calls_log_error. simpl. rewrite !omap_app, app_nil_r. simpl.
        do 3 (split; [done|]). split; [|done].
        intros Hlog. destruct (store_Save n h); simpl; rewrite Hlog; [done|].
        by rewrite app_nil_r.
      - by rewrite app_nil_r. }
    destruct (IH s1) as (s' & Hrun & Hss' & Hw' & Hl' & Hlog' & Hp').
    { intros m. rewrite Hss. apply Hnn. }
    { intros m Hm. rewrite Hss. apply Hdom. by apply list_elem_of_further. }
    exists s'. split; [done|]. rewrite Hss', Hw', Hl', Hp', Hp, Hss, Hw, Hl.
    do 3 (split; [done|]). split; [by auto|]. rewrite <- app_assoc. f_equal.
    rewrite filter_cons. unfold session.Written in *. rewrite Hw.
    by destruct (default false (written s !! n)).
Qed.

Lemma Before_nonnil s :
  nonnil s →
  ∃ s', Before s = Done tt s' ∧
        ss s' = ss s ∧ written s' = written s ∧ loads s' = loads s ∧
        (logged s → logged s') ∧
        persisted s' =
          persisted s ++ filter (λ n, session.Written n s = true) (elements (dom (ss s))).
Proof.
  intros Hnn. unfold Before. unfold mbind, M_bind, gets.
  apply Before_loop; [done|]. intros n. by rewrite elem_of_elements.
Qed.

Lemma persisted_new_Next ops : persisted (final (Next ops new_session)) = [].
Proof. by rewrite persisted_Next. Qed.

(** What a whole request persists: the names that are loaded and written
    when the response is first sent. *)
Lemma persisted_Sessions sent_before sent_after :
  persisted (final (Sessions sent_before sent_after)) =
  match Next sent_before new_session with
  | Done _ s => filter (λ n, session.Written n s = true) (elements (dom (ss s)))
  | Panic _ => []
  end.
Proof.
  unfold Sessions. rewrite final_bind.
  pose proof (persisted_new_Next sent_before) as Hp.
  destruct (Next sent_before new_session) as [[] s|s] eqn:E; [|done].
  simpl in Hp. rewrite final_bind.
  destruct (Before_nonnil s) as (s' & -> & _ & _ & _ & _ & Hp').
  { eapply nonnil_Next; [apply nonnil_new|done]. }
  by rewrite persisted_Next, Hp', Hp.
Qed.

End hook.

(** ** Which names get written, loaded and persisted *)

Section requests.

Context {St : Store}.

Lemma marks_mutating o m s :
  marks o m s = true → op_name o = m ∧ mutating o = true.
Proof.
  unfold marks. intros [Hn Hd]%andb_true_iff. apply bool_decide_eq_true in Hn.
  split; [done|]. destruct (resolve m s); by destruct o.
Qed.

Lemma Written_new m : session.Written m new_session = false.
Proof. unfold session.Written. simpl. by rewrite lookup_empty. Qed.

(** The written flag after a returning run: it was set at the start, or
    some call of the run set it. *)
Lemma Written_Next ops :
  ∀ s s' m, Next ops s = Done tt s' →
  session.Written m s' = true ↔
  session.Written m s = true ∨
  ∃ ops1 o ops2 s1,
    ops = ops1 ++ o :: ops2 ∧ Next ops1 s = Done tt s1 ∧ marks o m s1 = true.
Proof.
  unfold Next. induction ops as [|o ops IH]; intros s s' m Hrun; simpl in Hrun.
  - unfold mret, M_ret in Hrun. injection Hrun as <-. split; [by left|].
    intros [?|(ops1 & o & ops2 & s1 & Heq & _)]; [done|]. by destruct ops1.
  - unfold mbind, M_bind in Hrun. destruct (exec o s) as [[] t|t] eqn:E; [|done].
    rewrite (IH _ _ m Hrun), (Written_exec _ _ _ m E), orb_true_iff. split.
    + intros [[Hm|Hw]|(ops1 & o' & ops2 & s1 & -> & Hrun1 & Hm)].
      * right. by exists [], o, ops, s.
      * by left.
      * right. exists (o :: ops1), o', ops2, s1. split; [done|]. split; [|done].
        simpl. unfold mbind, M_bind. by rewrite E.
    + intros [Hw|(ops1 & o' & ops2 & s1 & Heq & Hrun1 & Hm)]; [by left; right|].
      destruct ops1 as [|o1 ops1]; simpl in Heq, Hrun1.
      * injection Heq as -> ->. unfold mret, M_ret in Hrun1.
        injection Hrun1 as <-. by left; left.
      * injection Heq as -> ->. unfold mbind, M_bind in Hrun1. rewrite E in Hrun1.
        right. by exists ops1, o', ops2, s1.
Qed.

(** A name written at the end of a run from the new session struct was the
    target of a mutating call. *)
Lemma Written_mutated ops s m :
  Next ops new_session = Done tt s →
  session.Written m s = true →
  ∃ o, o ∈ ops ∧ op_name o = m ∧ mutating o = true.
Proof.
  intros Hrun Hw. apply (Written_Next _ _ _ m Hrun) in Hw.
  destruct Hw as [Hw|(ops1 & o & ops2 & s1 & -> & _ & Hm)].
  - by rewrite Written_new in Hw.
  - exists o. split; [|by eapply marks_mutating].
    apply elem_of_app. right. apply list_elem_of_here.
Qed.

(** Whatever a request persists was the target of a mutating call made
    before the response was sent. *)
Lemma persisted_mutated sent_before sent_after m :
  m ∈ persisted (final (Sessions sent_before sent_after)) →
  ∃ o, o ∈ sent_before ∧ op_name o = m ∧ mutating o = true.
Proof.
  rewrite persisted_Sessions.
  destruct (Next sent_before new_session) as [[] s|s] eqn:E.
  - intros [Hw _]%list_elem_of_filter. by eapply Written_mutated.
  - by intros ?%not_elem_of_nil.
Qed.


End requests.

Section lazy_loading.

Context {St : Store}.

Lemma loads_touch n s :
  loads (touch n s) =
  loads s ++ match ss s !! n with Some (Some _) => [] | _ => [n] end.
Proof.
  unfold touch, loads. destruct (ss s !! n) as [[h|]|]; rewrite ?app_nil_r; try done;
    rewrite calls_log_error; simpl; by rewrite omap_app.
Qed.

Lemma loads_exec o s : loads (final (exec o s)) = loads (touch (op_name o) s).
Proof.
  rewrite final_exec. simpl. unfold loads.
  by destruct (usable o s); rewrite calls_mark_if.
Qed.

(** A property of the state that every call keeps, returning or not, and
    that the hook keeps, holds at the end of the request. *)
Lemma Sessions_final_ind (P : session → Prop) sent_before sent_after :
  (∀ o s, o ∈ sent_before ++ sent_after → P s → P (final (exec o s))) →
  (∀ s s', nonnil s → P s → Before s = Done tt s' → P s') →
  P new_session → P (final (Sessions sent_before sent_after)).
Proof.
  intros Hexec Hhook Hnew. unfold Sessions. rewrite final_bind.
  assert (P (final (Next sent_before new_session))) as Hb.
  { apply (forM_final_ind P); [|done].
    intros o s Ho. apply Hexec, elem_of_app. by left. }
  destruct (Next sent_before new_session) as [[] s|s] eqn:E; [|done].
  simpl in Hb. rewrite final_bind.
  assert (nonnil s) as Hnn by (eapply nonnil_Next; [apply nonnil_new|done]).
  destruct (Before_nonnil s Hnn) as (s' & Hrun & _).
  rewrite Hrun. apply (forM_final_ind P).
  - intros o t Ho. apply Hexec, elem_of_app. by right.
  - by eapply Hhook.
Qed.

Lemma loads_Sessions sent_before sent_after m :
  m ∈ loads (final (Sessions sent_before sent_after)) →
  m ∈ op_names (sent_before ++ sent_after).
Proof.
  apply (Sessions_final_ind (λ s, m ∈ loads s → m ∈ op_names (sent_before ++ sent_after))).
  - intros o s Ho IH. rewrite loads_exec, loads_touch.
    intros [Hm|Hm]%elem_of_app; [by apply IH|].
    destruct (ss s !! op_name o) as [[h|]|];
      [by apply not_elem_of_nil in Hm| |];
      apply list_elem_of_singleton in Hm as ->; by apply list_elem_of_fmap_2.
  - intros s s' Hnn IH Hrun.
    destruct (Before_nonnil s Hnn) as (t & Hrun' & _ & _ & Hl & _).
    rewrite Hrun in Hrun'. injection Hrun' as <-. by rewrite Hl.
  - by intros ?%not_elem_of_nil.
Qed.

(** C4.  A session name that no call of the request refers to appears in no
    persist call of that request; the store is not even asked to load it. *)
Theorem unreferenced_never_persisted (sent_before sent_after : list op) (n : string) :
  n ∉ op_names (sent_before ++ sent_after) →
  (n ∉ persisted (final (Sessions sent_before sent_after))) ∧
  (n ∉ loads (final (Sessions sent_before sent_after))).
Proof.
  intros Hn. split.
  - intros (o & Ho & <- & _)%persisted_mutated. apply Hn.
    apply list_elem_of_fmap_2, elem_of_app. by left.
  - by intros ?%loads_Sessions.
Qed.

(** C10.  [Options(name, opts)] copies the five fields into the options of
    the named session and leaves the written map as it was, also when it
    panics on a nil handle.  A request whose calls on [name] are all
    non-mutating ([Options], possibly [Get]) makes no persist call for it. *)
Theorem Options_leaves_written :
  (∀ (name : string) (opts : Options) (s : session),
     match session.Options name opts s with
     | Done _ s' =>
         (∃ h', ss s' !! name = Some (Some h') ∧
                gorilla.Opts h' =
                  Some {| gorilla.Path := Path opts;
                          gorilla.Domain := Domain opts;
                          gorilla.MaxAge := MaxAge opts;
                          gorilla.Secure := Secure opts;
                          gorilla.HttpOnly := HttpOnly opts |}) ∧
         written s' = written s
     | Panic s' => written s' = written s ∧ session.Session name s = Done None s'
     end) ∧
  (∀ (sent_before sent_after : list op) (name : string),
     (∀ o, o ∈ sent_before ++ sent_after → op_name o = name → mutating o = false) →
     name ∉ persisted (final (Sessions sent_before sent_after))).
Proof.
  split.
  - intros n o s. rewrite Options_eq. destruct (resolve n s) as [h|] eqn:E; simpl.
    + split; [|apply written_touch]. eexists. by rewrite lookup_insert_eq.
    + split; [apply written_touch|by apply Session_nil].
  - intros b a n Hops (o & Ho & Hn & Hm)%persisted_mutated.
    rewrite (Hops o) in Hm; [done| |done]. apply elem_of_app. by left.
Qed.

End lazy_loading.

(** ** When exactly a name is written *)

Section dirtiness.

Context {St : Store}.

Lemma exec_Done_resolve o s s' :
  exec o s = Done tt s' → ∃ h, resolve (op_name o) s = Some h.
Proof.
  rewrite exec_eq. simpl. destruct (usable o s) as [h|] eqn:E; [|done].
  intros _. exists h. by apply usable_Some.
Qed.

Lemma Next_app ops1 ops2 s :
  Next (ops1 ++ ops2) s =
  match Next ops1 s with
  | Done _ t => Next ops2 t
  | Panic t => Panic t
  end.
Proof.
  unfold Next. revert s. induction ops1 as [|o ops1 IH]; intros s; [done|].
  simpl. unfold mbind, M_bind. destruct (exec o s) as [[] t|t]; [apply IH|done].
Qed.

Lemma Next_cons o ops s :
  Next (o :: ops) s =
  match exec o s with
  | Done _ t => Next ops t
  | Panic t => Panic t
  end.
Proof. done. Qed.

(** C5, amended.  In a run of calls that returns, [Written(n)] is true
    exactly when an earlier call on [n] was a [Set], [Delete], [AddFlash] or
    [Flashes], or a [Clear] made while session [n] held at least one key. *)
Theorem Written_iff_marked (ops : list op) (s : session) (n : string) :
  Next ops new_session = Done tt s →
  session.Written n s = true ↔
  ∃ ops1 o ops2 s1,
    ops = ops1 ++ o :: ops2 ∧
    Next ops1 new_session = Done tt s1 ∧
    op_name o = n ∧
    mutating o = true ∧
    match o with
    | OpClear _ =>
        ∃ h s2, session.Session n s1 = Done (Some h) s2 ∧ gorilla.Values h ≠ ∅
    | _ => True
    end.
Proof.
  intros Hrun. rewrite (Written_Next _ _ _ n Hrun), Written_new. split.
  - intros [?|(ops1 & o & ops2 & s1 & -> & Hrun1 & Hm)]; [done|].
    exists ops1, o, ops2, s1. destruct (marks_mutating _ _ _ Hm) as [Hn Hmut].
    do 4 (split; [done|]). destruct o; try done.
    unfold marks in Hm. apply andb_true_iff in Hm as [_ Hm].
    destruct (resolve n s1) as [h|] eqn:E; [|done].
    exists h, (touch n s1). split; [by rewrite Session_eq, E|].
    by apply bool_decide_eq_true in Hm.
  - intros (ops1 & o & ops2 & s1 & -> & Hrun1 & Hn & Hmut & Hclear).
    right. exists ops1, o, ops2, s1. do 2 (split; [done|]).
    rewrite Next_app, Hrun1, Next_cons in Hrun.
    destruct (exec o s1) as [[] t|t] eqn:E; [|done].
    apply exec_Done_resolve in E as [h E]. rewrite Hn in E.
    unfold marks. rewrite E, bool_decide_true by done.
    destruct o; try done. destruct Hclear as (h' & s2 & [E' _]%Session_Done & Hv).
    rewrite E in E'. injection E' as <-. by apply bool_decide_eq_true.
Qed.

End dirtiness.

(** ** Flash messages *)

Section flashes.

Context {St : Store}.

(** C8, amended.  On a session [n] whose handle is not nil, [AddFlash(n, x)]
    followed by [Flashes(n)] returns the flashes already pending under the
    flash key followed by [x], so exactly [[x]] when none were pending, and
    a second [Flashes(n)] right after returns the empty sequence. *)
Theorem AddFlash_then_Flashes
    (n : string) (x : value) (vars : list string) (s s0 : session) (h : gorilla.Session) :
  session.Session n s = Done (Some h) s0 →
  ∃ s1 s2 s3 flashes,
    session.AddFlash n x vars s = Done tt s1 ∧
    session.Flashes n vars s1 = Done flashes s2 ∧
    flashes = default [] (gorilla.FlashLists h !! gorilla.flash_key vars) ++ [x] ∧
    (default [] (gorilla.FlashLists h !! gorilla.flash_key vars) = [] → flashes = [x]) ∧
    session.Flashes n vars s2 = Done [] s3.
Proof.
  intros [E _]%Session_Done. rewrite AddFlash_eq, E. do 4 eexists. split; [done|].
  rewrite Flashes_eq, (resolve_loaded _ _ _ (lookup_poked _ _ _ _)),
    (touch_loaded _ _ _ (lookup_poked _ _ _ _)).
  split; [done|]. simpl. rewrite lookup_insert_eq. simpl.
  split; [done|]. split; [by intros ->|].
  rewrite Flashes_eq, (resolve_loaded _ _ _ (lookup_poked _ _ _ _)),
    (touch_loaded _ _ _ (lookup_poked _ _ _ _)).
  simpl. by rewrite lookup_delete_eq.
Qed.

End flashes.

(** ** Loading from a store that fails *)

Section failing_store.

Context {St : Store}.

Lemma logged_touch n s : logged s → logged (touch n s).
Proof.
  unfold logged, touch. intros Hlog.
  destruct (ss s !! n) as [[h|]|]; try done;
    destruct (store_Get n) as [p [e|]] eqn:E; simpl;
    rewrite omap_app, Hlog; simpl; rewrite E; simpl; by rewrite ?app_nil_r.
Qed.

Lemma logged_exec o s : logged s → logged (final (exec o s)).
Proof.
  intros Hlog. rewrite final_exec. simpl. unfold logged.
  destruct (usable o s); rewrite logger_mark_if, calls_mark_if; by apply logged_touch.
Qed.

Lemma logged_Sessions sent_before sent_after :
  logged (final (Sessions sent_before sent_after)).
Proof.
  apply (Sessions_final_ind logged); [| |done].
  - intros o s _. apply logged_exec.
  - intros s s' Hnn Hlog Hrun.
    destruct (Before_nonnil s Hnn) as (t & Hrun' & _ & _ & _ & Hl & _).
    rewrite Hrun in Hrun'. injection Hrun' as <-. by apply Hl.
Qed.

Lemma load_count_touch n m s :
  load_count n (touch m s) =
  load_count n s +
  match ss s !! m with
  | Some (Some _) => 0
  | _ => if decide (m = n) then 1 else 0
  end.
Proof.
  unfold load_count. rewrite loads_touch, filter_app, length_app. f_equal.
  destruct (ss s !! m) as [[h|]|]; try done;
    rewrite filter_cons; by destruct (decide (m = n)).
Qed.



Lemma dom_exec_Done o s s' :
  exec o s = Done tt s' → dom (ss s') = {[op_name o]} ∪ dom (ss s).
Proof.
  rewrite exec_eq. simpl. destruct (usable o s); [|done].
  intros [= <-]. rewrite ss_mark_if. simpl. rewrite dom_insert_L, dom_touch.
  by rewrite (assoc_L (∪)), (idemp_L (∪)).
Qed.

Lemma dom_Next_Done ops :
  ∀ s s', Next ops s = Done tt s' →
  ∀ m, m ∈ dom (ss s') ↔ m ∈ op_names ops ∨ m ∈ dom (ss s).
Proof.
  induction ops as [|o ops IH]; intros s s' Hrun m.
  - injection Hrun as <-. split; [by right|]. by intros [?%not_elem_of_nil|?].
  - rewrite Next_cons in Hrun. destruct (exec o s) as [[] t|t] eqn:E; [|done].
    rewrite (IH _ _ Hrun), (dom_exec_Done _ _ _ E), elem_of_union, elem_of_singleton.
    unfold op_names. rewrite fmap_cons, elem_of_cons. tauto.
Qed.

Lemma Sessions_Done sent_before sent_after u :
  Sessions sent_before sent_after = Done tt u →
  ∃ s s', Next sent_before new_session = Done tt s ∧
          Before s = Done tt s' ∧ Next sent_after s' = Done tt u.
Proof.
  unfold Sessions. unfold mbind, M_bind.
  destruct (Next sent_before new_session) as [[] s|s]; [|done].
  destruct (Before s) as [[] s'|s'] eqn:Hhook; [|done]. intros Hrun. by exists s, s'.
Qed.

Lemma dom_Sessions_Done sent_before sent_after u m :
  Sessions sent_before sent_after = Done tt u →
  m ∈ op_names (sent_before ++ sent_after) → m ∈ dom (ss u).
Proof.
  intros (s & s' & Hb & Hh & Ha)%Sessions_Done. unfold op_names.
  rewrite fmap_app, elem_of_app, (dom_Next_Done _ _ _ Ha).
  assert (nonnil s) as Hnn by (eapply nonnil_Next; [apply nonnil_new|done]).
  destruct (Before_nonnil s Hnn) as (t & Hh' & Hss & _).
  rewrite Hh in Hh'. injection Hh' as <-. rewrite Hss, (dom_Next_Done _ _ _ Hb).
  tauto.
Qed.


End failing_store.

(** * Concrete requests *)

(** The first scenario of the package documentation: one [Set] on one
    session makes the hook persist that session and nothing else. *)
Example hello_world_persists_app :
  persisted (final (@Sessions emptyStore
                      [OpSet "app" (KString "hello") (VString "world")] [])) = ["app"].
Proof. vm_compute. reflexivity. Qed.



(** C2 as stated fails: a NaN key does not equal itself, so the entry that
    [Set] stores under it is never found again. *)
Lemma NaN_key_not_read_back :
  ∃ s' v,
    @session.Set_ emptyStore "app" NaN (VString "world") new_session = Done tt s' ∧
    @session.Get emptyStore "app" NaN s' = Done v s' ∧
    v ≠ VString "world".
Proof.
  do 2 eexists. split; [vm_compute; reflexivity|].
  split; [vm_compute; reflexivity|]. done.
Qed.




(** C4 at a request that never names the session ["cart"]. *)
Lemma unreferenced_never_persisted_witness :
  let sent_before := [OpSet "app" (KString "hello") (VString "world")] in
  let sent_after := [OpGet "lang" (KString "code")] in
  ("cart" ∉ op_names (sent_before ++ sent_after)) ∧
  ("cart" ∉ persisted (final (@Sessions emptyStore sent_before sent_after))) ∧
  ("cart" ∉ loads (final (@Sessions emptyStore sent_before sent_after))).
Proof.
  assert ("cart" ∉ op_names ([OpSet "app" (KString "hello") (VString "world")] ++
                             [OpGet "lang" (KString "code")])) as Hn.
  { intros [?|[?|?%not_elem_of_nil]%elem_of_cons]%elem_of_cons; done. }
  split; [exact Hn|].
  exact (@unreferenced_never_persisted emptyStore _ _ "cart" Hn).
Defined.

(** C5 as stated fails: [Clear] on a session without keys deletes nothing,
    so no [Delete] marks the session. *)
Lemma Clear_of_empty_not_written :
  let ops := [OpClear "app"] in
  let r := @Next emptyStore ops new_session in
  (∃ s, r = Done tt s) ∧
  ¬ (session.Written "app" (final r) = true ↔
     ∃ o, o ∈ ops ∧ op_name o = "app" ∧ mutating o = true).
Proof.
  split; [eexists; vm_compute; reflexivity|].
  intros [_ Hw].
  assert (@session.Written "app" (final (@Next emptyStore [OpClear "app"] new_session))
          = false) as Hclean by (vm_compute; reflexivity).
  rewrite Hw in Hclean; [done|].
  exists (OpClear "app"). split; [apply list_elem_of_here|done].
Qed.

(** C5, amended, at a run that sets a key in one session. *)
Lemma Written_iff_marked_witness :
  let ops := [OpSet "app" (KString "hello") (VString "world")] in
  let s := final (@Next emptyStore ops new_session) in
  @Next emptyStore ops new_session = Done tt s ∧
  (session.Written "app" s = true ↔
   ∃ ops1 o ops2 s1,
     ops = ops1 ++ o :: ops2 ∧
     @Next emptyStore ops1 new_session = Done tt s1 ∧
     op_name o = "app" ∧
     mutating o = true ∧
     match o with
     | OpClear _ =>
         ∃ h s2, @session.Session emptyStore "app" s1 = Done (Some h) s2 ∧
                 gorilla.Values h ≠ ∅
     | _ => True
     end).
Proof.
  intros ops s. split; [vm_compute; reflexivity|].
  apply (@Written_iff_marked emptyStore ops s "app"). vm_compute. reflexivity.
Defined.


(** C8 as stated fails: a flash left pending by an earlier request is
    returned ahead of the one just added. *)
Lemma pending_flash_returned_first :
  ∃ s1 s2 flashes,
    @session.AddFlash carryingStore "app" (VString "x") [] new_session = Done tt s1 ∧
    @session.Flashes carryingStore "app" [] s1 = Done flashes s2 ∧
    flashes = [VString "saved"; VString "x"] ∧
    flashes ≠ [VString "x"].
Proof.
  do 3 eexists. split; [vm_compute; reflexivity|].
  split; [vm_compute; reflexivity|]. done.
Qed.

(** C8, amended, at a new session: the flash comes back alone, once. *)
Lemma AddFlash_then_Flashes_witness :
  let s0 := final (@session.Session emptyStore "app" new_session) in
  @session.Session emptyStore "app" new_session = Done (Some gorilla.NewSession) s0 ∧
  ∃ s1 s2 s3,
    @session.AddFlash emptyStore "app" (VString "x") [] new_session = Done tt s1 ∧
    @session.Flashes emptyStore "app" [] s1 = Done [VString "x"] s2 ∧
    @session.Flashes emptyStore "app" [] s2 = Done [] s3.
Proof.
  intros s0. assert (@session.Session emptyStore "app" new_session =
                       Done (Some gorilla.NewSession) s0) as Hload
    by (vm_compute; reflexivity).
  split; [exact Hload|].
  destruct (@AddFlash_then_Flashes emptyStore "app" (VString "x") [] new_session s0
              gorilla.NewSession Hload)
    as (s1 & s2 & s3 & flashes & Hadd & Hfl & _ & Hone & Hnone).
  exists s1, s2, s3. split; [exact Hadd|]. split; [|exact Hnone].
  rewrite Hfl. f_equal. apply Hone. reflexivity.
Defined.

(** C10 at a request that only sets the options of one session. *)
Lemma Options_leaves_written_witness :
  let opts := {| Path := "/"; Domain := ""; MaxAge := 3600; Secure := true; HttpOnly := true |} in
  let sent_before := [OpOptions "app" opts] in
  (∀ o, o ∈ sent_before ++ [] → op_name o = "app" → mutating o = false) ∧
  ("app" ∉ persisted (final (@Sessions emptyStore sent_before []))).
Proof.
  assert (∀ o, o ∈ [OpOptions "app" {| Path := "/"; Domain := ""; MaxAge := 3600;
                                       Secure := true; HttpOnly := true |}] ++ [] →
               op_name o = "app" → mutating o = false) as Hops.
  { intros o [->|?%not_elem_of_nil]%elem_of_cons; done. }
  split; [exact Hops|].
  exact (proj2 (@Options_leaves_written emptyStore) _ _ "app" Hops).
Defined.

(** * Further properties of the adapter *)

(** ** Reads *)

Section reads.

Context {St : Store}.


(** X2.  A nil handle is not cached: when the store answers a load with a
    nil handle, the next reference to the name asks the store again and logs
    the error again. *)
Theorem nil_handle_asked_again (n : string) (s : session) :
  (store_Get n).1 = None →
  ss s !! n = None →
  ∃ s1 s2,
    session.Session n s = Done None s1 ∧
    session.Session n s1 = Done None s2 ∧
    ss s2 !! n = Some None ∧
    loads s2 = loads s ++ [n; n] ∧
    logger s2 =
      logger s ++ match (store_Get n).2 with
                  | Some e => [errorFormat e; errorFormat e]
                  | None => []
                  end.
Proof.
  intros Hnil Hnone. exists (touch n s), (touch n (touch n s)).
  assert (resolve n s = None) as E by (unfold resolve; by rewrite Hnone).
  assert (ss (touch n s) !! n = Some None) as E1 by (by rewrite lookup_touch_eq, E).
  assert (resolve n (touch n s) = None) as E' by (unfold resolve; by rewrite E1).
  split; [by rewrite Session_eq, E|]. split; [by rewrite Session_eq, E'|].
  split; [by rewrite lookup_touch_eq, E'|].
  split.
  - rewrite !loads_touch, E1, Hnone. by rewrite <- app_assoc.
  - unfold touch at 1. rewrite E1. unfold touch. rewrite Hnone.
    destruct (store_Get n).2; simpl; [by rewrite <- app_assoc|by rewrite app_nil_r].
Qed.

End reads.

(** ** Writes *)

Section writes.

Context {St : Store}.

Lemma poke_twice n h1 h2 f g s :
  set_written g (set_ss <[n := Some h2]> (set_written f (set_ss <[n := Some h1]> s))) =
  set_written (g ∘ f) (set_ss <[n := Some h2]> s).
Proof.
  destruct s. unfold set_written, set_ss. simpl. by rewrite insert_insert_eq.
Qed.

(** X3.  [Set] on one key leaves every other key of the session as it was:
    a [Get] of another key returns afterwards what the handle held for it
    before. *)
Theorem Set_keeps_other_keys
    (n : string) (k k' : key) (v : value) (s s0 : session) (h : gorilla.Session) :
  session.Session n s = Done (Some h) s0 →
  k ≠ k' →
  ∃ s', session.Set_ n k v s = Done tt s' ∧
        session.Get n k' s' = Done (default VNil (gorilla.Values h !! k')) s'.
Proof.
  intros [E _]%Session_Done Hne. rewrite Set_eq, E. eexists. split; [done|].
  rewrite (Get_loaded _ _ _ _ (lookup_poked _ _ _ _)).
  cbn [gorilla.Values gorilla.with_Values]. by rewrite lookup_go_assign_ne.
Qed.

(** X4.  On a key that equals itself the last [Set] wins and leaves no
    trace of the earlier one: two [Set]s on the same key end in the very
    state the second alone gives. *)
Theorem Set_overwrites
    (n : string) (k : key) (v1 v2 : value) (s s0 : session) (h : gorilla.Session) :
  session.Session n s = Done (Some h) s0 →
  ∃ s1 s2,
    session.Set_ n k v1 s = Done tt s1 ∧
    session.Set_ n k v2 s1 = Done tt s2 ∧
    session.Set_ n k v2 s = Done tt s2 ∧
    session.Get n k s2 = Done v2 s2.
Proof.
  intros [E _]%Session_Done.
  exists (set_written <[n := true]>
            (set_ss <[n := Some (gorilla.with_Values (go_assign k v1) h)]> (touch n s))),
         (set_written <[n := true]>
            (set_ss <[n := Some (gorilla.with_Values (go_assign k v2) h)]> (touch n s))).
  rewrite !Set_eq, E. split; [done|].
  rewrite (resolve_loaded _ _ _ (lookup_poked _ _ _ _)),
    (touch_loaded _ _ _ (lookup_poked _ _ _ _)).
  split; [|split; [done|]].
  - f_equal. rewrite poke_twice. destruct (touch n s), h as [[e ns] fl o].
    unfold set_written, set_ss, gorilla.with_Values. simpl.
    by rewrite !insert_insert_eq.
  - rewrite (Get_loaded _ _ _ _ (lookup_poked _ _ _ _)).
    cbn [gorilla.Values gorilla.with_Values]. by rewrite lookup_go_assign_eq.
Qed.

(** X5.  [Delete] of one key leaves every other key of the session as it
    was. *)
Theorem Delete_keeps_other_keys
    (n : string) (k k' : key) (s s0 : session) (h : gorilla.Session) :
  session.Session n s = Done (Some h) s0 →
  k ≠ k' →
  ∃ s', session.Delete n k s = Done tt s' ∧
        session.Get n k' s' = Done (default VNil (gorilla.Values h !! k')) s'.
Proof.
  intros [E _]%Session_Done Hne. rewrite Delete_eq, E. eexists. split; [done|].
  rewrite (Get_loaded _ _ _ _ (lookup_poked _ _ _ _)).
  cbn [gorilla.Values gorilla.with_Values]. by rewrite lookup_go_delete_ne.
Qed.


(** X7.  [Clear] on a session without keys does nothing beyond the lazy
    load: no key is visited, no flag is set. *)
Theorem Clear_without_keys (n : string) (s s0 : session) (h : gorilla.Session) :
  session.Session n s = Done (Some h) s0 →
  gorilla.Values h = ∅ →
  session.Clear n s = Done tt s0.
Proof.
  intros [E <-]%Session_Done Hv. rewrite Clear_eq, E.
  rewrite bool_decide_false by (by intros []). simpl.
  by rewrite with_Values_empty, poke_resolved.
Qed.

(** X8.  The order in which the range of [Clear] yields the entries does
    not matter: deleting the session's keys in any order ends in the state
    [Clear] ends in. *)
Theorem Clear_any_order
    (n : string) (l : list gokey) (s s0 : session) (h : gorilla.Session) :
  session.Session n s = Done (Some h) s0 →
  l ≡ₚ go_range (gorilla.Values h) →
  forM_ l (λ k, session.Delete n k) s0 = session.Clear n s.
Proof.
  intros [E <-]%Session_Done Hperm. rewrite Clear_eq, E.
  assert (ss (touch n s) !! n = Some (Some h)) as Hl by (by rewrite lookup_touch_eq, E).
  destruct l as [|k l].
  - symmetry in Hperm. apply Permutation_nil_r in Hperm.
    apply go_range_nil in Hperm.
    rewrite bool_decide_false by (by intros []). simpl.
    by rewrite with_Values_empty, poke_resolved.
  - rewrite (Clear_loop n _ _ h Hl); [|done|].
    + assert (gorilla.Values h ≠ ∅) as Hv.
      { intros Hv%go_range_nil. rewrite Hv in Hperm.
        by apply Permutation_nil_r in Hperm. }
      rewrite bool_decide_true by done.
      assert (foldl (λ m k, go_delete k m) (gorilla.Values h) (k :: l)
              = go_nans_only (gorilla.Values h)) as Hall.
      { apply go_delete_all. intros k' Hk'. rewrite Hperm.
        by apply elem_of_go_range_Key. }
      unfold gorilla.with_Values, mark_if. by rewrite Hall.
    + rewrite Hperm. apply Unhashable_not_in_go_range.
Qed.

(** X9.  [Options] touches nothing but the options of the handle: the
    values read back as before and the written flag of the name is what it
    was; a second [Options] replaces the first without trace. *)
Theorem Options_keeps_values
    (n : string) (k : key) (o1 o2 : Options) (s s0 : session) (h : gorilla.Session) :
  session.Session n s = Done (Some h) s0 →
  ∃ s1 s2,
    session.Options n o1 s = Done tt s1 ∧
    session.Get n k s1 = Done (default VNil (gorilla.Values h !! k)) s1 ∧
    session.Written n s1 = session.Written n s ∧
    session.Options n o2 s1 = Done tt s2 ∧
    session.Options n o2 s = Done tt s2.
Proof.
  intros [E _]%Session_Done.
  exists (set_ss <[n := Some (effect (OpOptions n o1) h)]> (touch n s)),
         (set_ss <[n := Some (effect (OpOptions n o2) h)]> (touch n s)).
  assert (∀ h' t, ss (set_ss <[n := Some h']> t) !! n = Some (Some h')) as Hl.
  { intros h' t. simpl. by rewrite lookup_insert_eq. }
  rewrite !Options_eq, E. split; [done|].
  split; [by rewrite (Get_loaded _ _ _ _ (Hl _ _))|].
  split; [unfold session.Written; simpl; by rewrite written_touch|].
  rewrite (resolve_loaded _ _ _ (Hl _ _)), (touch_loaded _ _ _ (Hl _ _)).
  split; [|done]. f_equal. destruct (touch n s). unfold set_ss. simpl.
  by rewrite insert_insert_eq.
Qed.

(** X10.  On a nil handle every call panics after the load has stored the
    nil in [ss]; no call has changed anything else by then, except that
    [Flashes] has already set the written flag. *)
Theorem nil_handle_panics (o : op) (s s0 : session) :
  session.Session (op_name o) s = Done None s0 →
  ss s0 !! op_name o = Some None ∧
  exec o s =
    match o with
    | OpFlashes n _ => Panic (set_written <[n := true]> s0)
    | _ => Panic s0
    end.
Proof.
  intros [E <-]%Session_Done. split; [by rewrite lookup_touch_eq, E|].
  rewrite exec_eq. unfold usable. simpl. rewrite E.
  destruct (hashable o); by destruct o.
Qed.

End writes.

(** ** Flags and loads over a whole request *)

Section bookkeeping.

Context {St : Store}.

Lemma final_save_if_written n s :
  final (save_if_written n s) =
  if session.Written n s then
    match resolve n s with
    | Some h => log_error (store_Save n h) (record (Persist n h) (touch n s))
    | None => touch n s
    end
  else s.
Proof.
  unfold save_if_written, Save. unfold_M. destruct (session.Written n s); [|done].
  rewrite Session_eq. destruct (resolve n s) as [h|]; [|done].
  by destruct (store_Save n h).
Qed.

Lemma final_Before s :
  final (Before s) = final (forM_ (elements (dom (ss s))) save_if_written s).
Proof. done. Qed.

(** X11.  A written flag is never reset: once [Written(n)] is true it stays
    true through every further call, returning or panicking, and through
    the hook. *)
Theorem Written_never_reset (n : string) (ops : list op) (s : session) :
  session.Written n s = true →
  session.Written n (final (Next ops s)) = true ∧
  session.Written n (final (Before s)) = true.
Proof.
  intros Hw. split.
  - apply (forM_final_ind (λ t, session.Written n t = true)); [|done].
    intros o t _ Ht. rewrite final_exec. simpl.
    destruct (usable o t); rewrite Written_mark_if;
      unfold session.Written in *; simpl; rewrite written_touch, Ht;
      apply orb_true_r.
  - rewrite final_Before.
    apply (forM_final_ind (λ t, session.Written n t = true)); [|done].
    intros m t _ Ht. rewrite final_save_if_written. unfold session.Written in *.
    destruct (default false (written t !! m)); [|done].
    destruct (resolve m t);
      by rewrite ?written_log_error; simpl; rewrite written_touch.
Qed.

Lemma load_record_exec n o s :
  load_record n s → load_record n (final (exec o s)).
Proof.
  unfold load_record, load_count. rewrite loads_exec.
  fold (load_count n (touch (op_name o) s)) (load_count n s).
  rewrite load_count_touch.
  destruct (decide (op_name o = n)) as [Hn|Hne].
  - destruct (lookup_final_exec_eq o s) as (p & Hp & Hiff).
    rewrite Hn in Hp, Hiff |- *. rewrite Hp. unfold resolve in Hiff.
    destruct (ss s !! n) as [[h|]|]; intros Hr.
    + destruct p; [lia|]. destruct (proj2 Hiff) as [? [=]]. by eexists.
    + rewrite Hr in Hiff. destruct p as [h'|]; [|done].
      destruct (proj1 Hiff) as [? [=]]. by eexists.
    + destruct p as [h'|].
      * destruct (proj1 Hiff) as [? _]; [by eexists|]. lia.
      * destruct (store_Get n).1 as [h'|]; [|done].
        destruct (proj2 Hiff) as [? [=]]. by eexists.
  - rewrite (lookup_final_exec_ne _ _ _ Hne). intros Hr.
    destruct (ss s !! op_name o) as [[?|]|]; by rewrite Nat.add_0_r.
Qed.

Lemma load_record_Sessions n sent_before sent_after :
  load_record n (final (Sessions sent_before sent_after)).
Proof.
  apply (Sessions_final_ind (load_record n)).
  - intros o s _. apply load_record_exec.
  - intros s s' Hnn Hl Hrun.
    destruct (Before_nonnil s Hnn) as (t & Hrun' & Hss & _ & Hloads & _).
    rewrite Hrun in Hrun'. injection Hrun' as <-.
    unfold load_record, load_count in *. by rewrite Hss, Hloads.
  - unfold load_record. simpl. by rewrite lookup_empty.
Qed.

Lemma nonnil_Sessions_Done sent_before sent_after u :
  Sessions sent_before sent_after = Done tt u → nonnil u.
Proof.
  intros (s & s' & Hb & Hh & Ha)%Sessions_Done.
  assert (nonnil s) as Hnn by (eapply nonnil_Next; [apply nonnil_new|done]).
  destruct (Before_nonnil s Hnn) as (t & Hh' & Hss & _).
  rewrite Hh in Hh'. injection Hh' as <-.
  eapply nonnil_Next; [|done]. intros m. rewrite Hss. apply Hnn.
Qed.

(** X12.  In a request that returns, whatever the store, the store is asked
    to load each session name the request refers to exactly once, and no
    other name at all. *)
Theorem loads_once_per_name (sent_before sent_after : list op) (u : session) (n : string) :
  Sessions sent_before sent_after = Done tt u →
  load_count n u = if decide (n ∈ op_names (sent_before ++ sent_after)) then 1 else 0.
Proof.
  intros Hrun. destruct (decide (n ∈ op_names (sent_before ++ sent_after))) as [Hn|Hn].
  - pose proof (load_record_Sessions n sent_before sent_after) as Hr.
    rewrite Hrun in Hr. simpl in Hr. unfold load_record in Hr.
    apply (dom_Sessions_Done _ _ _ _ Hrun), elem_of_dom in Hn as [p Hp].
    rewrite Hp in Hr. destruct p as [h|]; [done|].
    by destruct (nonnil_Sessions_Done _ _ _ Hrun n).
  - unfold load_count.
    destruct (filter (λ m, m = n) (loads u)) as [|m l] eqn:E; [done|].
    assert (m ∈ filter (λ m, m = n) (loads u)) as [-> Hm]%list_elem_of_filter
      by (rewrite E; apply list_elem_of_here).
    destruct Hn. apply loads_Sessions. by rewrite Hrun.
Qed.

End bookkeeping.

(** ** What the hook hands to the store *)

Section persisting.

Context {St : Store}.

Lemma Before_loop_calls l :
  ∀ s, nonnil s → (∀ n, n ∈ l → n ∈ dom (ss s)) →
  ∃ s', forM_ l save_if_written s = Done tt s' ∧
        ss s' = ss s ∧ written s' = written s ∧
        calls s' = calls s ++ saves s l ∧
        logger s' = logger s ++ omap call_error (saves s l).
Proof.
  induction l as [|n l IH]; intros s Hnn Hdom.
  - exists s. by rewrite !app_nil_r.
  - assert (∃ h, ss s !! n = Some (Some h)) as [h E].
    { destruct (ss s !! n) as [[h|]|] eqn:E; [by eexists|by destruct (Hnn n)|].
      apply not_elem_of_dom in E. destruct E. apply Hdom, list_elem_of_here. }
    assert (saves s (n :: l) =
            (if session.Written n s then [Persist n h] else []) ++ saves s l) as ->.
    { unfold saves at 1. simpl. rewrite E. unfold session.Written.
      by destruct (default false (written s !! n)). }
    set (c := if session.Written n s then [Persist n h] else []).
    simpl. unfold mbind, M_bind at 1. rewrite (save_if_written_loaded _ _ _ E).
    set (s1 := if session.Written n s then _ else s).
    assert (ss s1 = ss s ∧ written s1 = written s ∧
            calls s1 = calls s ++ c ∧ logger s1 = logger s ++ omap call_error c)
      as (Hss & Hw & Hc & Hlog).
    { subst s1 c. destruct (session.Written n s).
      - rewrite ss_log_error, written_log_error, calls_log_error. simpl.
        do 3 (split; [done|]). destruct (store_Save n h); simpl; by rewrite ?app_nil_r.
      - by rewrite !app_nil_r. }
    destruct (IH s1) as (s' & Hrun & Hss' & Hw' & Hc' & Hlog').
    { intros m. rewrite Hss. apply Hnn. }
    { intros m Hm. rewrite Hss. apply Hdom. by apply list_elem_of_further. }
    exists s'. split; [done|]. rewrite Hss', Hw', Hc', Hlog', Hc, Hlog, Hss, Hw.
    do 2 (split; [done|]).
    assert (saves s1 l = saves s l) as -> by (unfold saves; by rewrite Hss, Hw).
    by rewrite omap_app, !app_assoc.
Qed.

Lemma elem_of_saves s l n h :
  Persist n h ∈ saves s l ↔
  n ∈ l ∧ ss s !! n = Some (Some h) ∧ session.Written n s = true.
Proof.
  unfold saves, session.Written. rewrite list_elem_of_omap. split.
  - intros (m & Hm & Hf). destruct (ss s !! m) as [[h'|]|] eqn:E; try done.
    destruct (default false (written s !! m)) eqn:Hw; [|done].
    injection Hf as -> ->. by rewrite E.
  - intros (Hn & E & Hw). exists n. by rewrite E, Hw.
Qed.

(** X13.  After the calls made before sending have returned, the hook hands
    to the store the handle each written session holds at that moment, so
    with every change the request has made to it; it logs one line per save
    that fails and goes on with the remaining names; and it leaves the
    sessions and the written flags as they are. *)
Theorem Before_persists_current_handles (sent_before : list op) (s : session) :
  Next sent_before new_session = Done tt s →
  ∃ s', Before s = Done tt s' ∧
        ss s' = ss s ∧ written s' = written s ∧
        calls s' = calls s ++ saves s (elements (dom (ss s))) ∧
        logger s' = logger s ++ omap call_error (saves s (elements (dom (ss s)))) ∧
        ∀ n h, Persist n h ∈ saves s (elements (dom (ss s))) ↔
               ss s !! n = Some (Some h) ∧ session.Written n s = true.
Proof.
  intros Hrun.
  assert (nonnil s) as Hnn by (eapply nonnil_Next; [apply nonnil_new|done]).
  destruct (Before_loop_calls (elements (dom (ss s))) s Hnn)
    as (s' & Hb & Hss & Hw & Hc & Hlog).
  { intros n. by rewrite elem_of_elements. }
  exists s'. do 5 (split; [done|]). intros n h. rewrite elem_of_saves.
  rewrite elem_of_elements, elem_of_dom. split; [tauto|].
  intros [E Hw']. by rewrite E.
Qed.

(** X14.  After the calls made before the hook runs have returned, the
    order in which the range of the hook yields the names does not matter:
    saving the written sessions in any order returns, leaves the same
    sessions and flags, and makes the same store calls and log lines up to
    their order. *)
Theorem Before_any_order (sent_before : list op) (s : session) (l : list string) :
  Next sent_before new_session = Done tt s →
  l ≡ₚ elements (dom (ss s)) →
  ∃ s1 s2,
    forM_ l save_if_written s = Done tt s1 ∧
    Before s = Done tt s2 ∧
    ss s1 = ss s2 ∧ written s1 = written s2 ∧
    calls s1 ≡ₚ calls s2 ∧ logger s1 ≡ₚ logger s2 ∧
    persisted s1 ≡ₚ persisted s2.
Proof.
  intros Hrun Hperm.
  assert (nonnil s) as Hnn by (eapply nonnil_Next; [apply nonnil_new|done]).
  destruct (Before_loop_calls l s Hnn) as (s1 & Hb1 & Hss1 & Hw1 & Hc1 & Hlog1).
  { intros n. rewrite Hperm. by rewrite elem_of_elements. }
  destruct (Before_loop_calls (elements (dom (ss s))) s Hnn)
    as (s2 & Hb2 & Hss2 & Hw2 & Hc2 & Hlog2).
  { intros n. by rewrite elem_of_elements. }
  assert (saves s l ≡ₚ saves s (elements (dom (ss s)))) as Hsaves
    by (unfold saves; by rewrite Hperm).
  exists s1, s2. split; [done|]. split; [done|].
  rewrite Hss1, Hss2, Hw1, Hw2. do 2 (split; [done|]).
  assert (calls s1 ≡ₚ calls s2) as Hcalls by (by rewrite Hc1, Hc2, Hsaves).
  split; [done|]. split; [by rewrite Hlog1, Hlog2, Hsaves|].
  unfold persisted. by rewrite Hcalls.
Qed.

(** X16.  A change is persisted by the next run of the hook.  From a state
    without nil handles (the new session struct, or the state that returning
    calls and runs of the hook have left), when a run of calls returns and
    one of them is a [Set], [Delete], [AddFlash] or [Flashes], the hook then
    returns, makes one persist call for the session that call names, none
    twice, and again leaves a state without nil handles. *)
Theorem change_persisted_by_next_hook (ops : list op) (s s1 : session) (o : op) :
  nonnil s →
  Next ops s = Done tt s1 →
  o ∈ ops →
  mutating o = true →
  (∀ n, o ≠ OpClear n) →
  ∃ s' l, Before s1 = Done tt s' ∧
          persisted s' = persisted s1 ++ l ∧
          op_name o ∈ l ∧ NoDup l ∧ nonnil s'.
Proof.
  intros Hnn Hrun Ho Hmut Hclear.
  assert (nonnil s1) as Hnn1 by (by eapply nonnil_Next).
  destruct (Before_nonnil s1 Hnn1) as (s' & Hb & Hss & _ & _ & _ & Hp).
  exists s', (filter (λ n, session.Written n s1 = true) (elements (dom (ss s1)))).
  do 2 (split; [done|]). split; [|split; [apply NoDup_filter, NoDup_elements|]].
  - apply list_elem_of_filter. split.
    + apply (Written_Next _ _ _ (op_name o) Hrun). right.
      destruct (list_elem_of_split _ _ Ho) as (l1 & l2 & ->).
      rewrite Next_app in Hrun.
      destruct (Next l1 s) as [[] t1|t1] eqn:E1; [|done].
      exists l1, o, l2, t1. do 2 (split; [done|]).
      rewrite Next_cons in Hrun. destruct (exec o t1) as [[] t|t] eqn:E; [|done].
      apply exec_Done_resolve in E as [h E]. unfold marks.
      rewrite E, bool_decide_true by done. destruct o; try done.
      by destruct (Hclear name).
    + apply elem_of_elements, (dom_Next_Done _ _ _ Hrun). left.
      by apply list_elem_of_fmap_2.
  - intros m. rewrite Hss. apply Hnn1.
Qed.

(** X17.  Every line a request logs is the formatted error of one of its
    store calls, and a request whose store never fails logs nothing. *)
Theorem log_holds_store_errors (sent_before sent_after : list op) :
  (∀ line, line ∈ logger (final (Sessions sent_before sent_after)) →
     ∃ c e, c ∈ calls (final (Sessions sent_before sent_after)) ∧
            line = errorFormat e ∧
            match c with
            | Load n => (store_Get n).2 = Some e
            | Persist n h => store_Save n h = Some e
            end) ∧
  ((∀ n, (store_Get n).2 = None) → (∀ n h, store_Save n h = None) →
   logger (final (Sessions sent_before sent_after)) = []).
Proof.
  pose proof (logged_Sessions sent_before sent_after) as Hlog. unfold logged in Hlog.
  assert (∀ line, line ∈ logger (final (Sessions sent_before sent_after)) →
     ∃ c e, c ∈ calls (final (Sessions sent_before sent_after)) ∧
            line = errorFormat e ∧
            match c with
            | Load n => (store_Get n).2 = Some e
            | Persist n h => store_Save n h = Some e
            end) as Hlines.
  { intros line. rewrite Hlog, list_elem_of_omap. intros (c & Hc & He).
    destruct c as [n|n h]; simpl in He.
    - destruct (store_Get n).2 as [e|] eqn:E; [|done]. injection He as <-.
      by exists (Load n), e.
    - destruct (store_Save n h) as [e|] eqn:E; [|done]. injection He as <-.
      by exists (Persist n h), e. }
  split; [done|]. intros Hget Hsave.
  destruct (logger (final (Sessions sent_before sent_after))) as [|line l]; [done|].
  destruct (Hlines line (list_elem_of_here _ _)) as (c & e & _ & _ & Hc).
  destruct c as [n|n h]; [by rewrite Hget in Hc|by rewrite Hsave in Hc].
Qed.

End persisting.

(** ** Keys that do not equal themselves *)

Section odd_keys.

Context {St : Store}.

(** X18.  An entry stored under a NaN key is out of reach: [Set] with a NaN
    key returns and adds one entry without touching any other, [Get] with a
    NaN key returns nil all the same, every key that equals itself reads as
    before, and [Delete] with a NaN key removes nothing. *)
Theorem NaN_key_out_of_reach
    (n : string) (v : value) (s s0 : session) (h : gorilla.Session) :
  session.Session n s = Done (Some h) s0 →
  ∃ s1 h1,
    session.Set_ n NaN v s = Done tt s1 ∧
    ss s1 !! n = Some (Some h1) ∧
    go_range (gorilla.Values h1) = go_range (gorilla.Values h) ++ [NaN] ∧
    session.Get n NaN s1 = Done VNil s1 ∧
    (∀ k : key, session.Get n k s1 = Done (default VNil (gorilla.Values h !! k)) s1) ∧
    session.Delete n NaN s1 = Done tt s1.
Proof.
  intros [E _]%Session_Done. rewrite Set_any, E.
  set (h1 := gorilla.with_Values (go_assign NaN v) h).
  set (s1 := set_written <[n := true]> (set_ss <[n := Some h1]> (touch n s))).
  assert (ss s1 !! n = Some (Some h1)) as E1 by apply lookup_poked.
  exists s1, h1. split; [done|]. split; [done|]. split; [|split; [|split]].
  - unfold go_range. simpl. rewrite length_app. simpl.
    rewrite Nat.add_1_r, replicate_S_end. by rewrite (assoc_L (++)).
  - by rewrite Get_any, (resolve_loaded _ _ _ E1), (touch_loaded _ _ _ E1).
  - intros k. by rewrite (Get_loaded _ _ _ _ E1).
  - rewrite Delete_any, (resolve_loaded _ _ _ E1), (touch_loaded _ _ _ E1).
    f_equal. subst s1. destruct (touch n s). unfold set_written, set_ss. simpl.
    by rewrite !insert_insert_eq.
Qed.

End odd_keys.

(** ** Any schedule of calls and runs of the hook *)

Section schedules.

Context {St : Store}.




Lemma ss_final_save_if_written m t :
  ss (final (save_if_written m t)) = ss (touch m t) ∨ ss (final (save_if_written m t)) = ss t.
Proof.
  rewrite final_save_if_written. destruct (session.Written m t); [|by right].
  left. destruct (resolve m t); by rewrite ?ss_log_error.
Qed.


Lemma written_final_save_if_written m t :
  written (final (save_if_written m t)) = written t.
Proof.
  rewrite final_save_if_written. destruct (session.Written m t); [|done].
  destruct (resolve m t); by rewrite ?written_log_error; simpl; rewrite written_touch.
Qed.















(** The usual schedule is one of them. *)
Lemma Next_Done_steps ops :
  ∀ s s', Next ops s = Done tt s' → foldl step s (Call <$> ops) = s'.
Proof.
  induction ops as [|o ops IH]; intros s s' Hrun.
  - by injection Hrun as <-.
  - rewrite Next_cons in Hrun. simpl.
    destruct (exec o s) as [[] t|t] eqn:E; [|done]. by apply IH.
Qed.

Lemma Next_final_steps ops :
  ∀ s, ∃ k, final (Next ops s) = foldl step s (Call <$> take k ops).
Proof.
  induction ops as [|o ops IH]; intros s.
  - by exists 0.
  - rewrite Next_cons. destruct (exec o s) as [[] t|t] eqn:E.
    + destruct (IH t) as [k Hk]. exists (S k). simpl. by rewrite E.
    + exists 1. simpl. by rewrite E.
Qed.

Lemma called_Call ops : called (Call <$> ops) = ops.
Proof. induction ops as [|o ops IH]; [done|]. unfold called in *. simpl. by f_equal. Qed.

Lemma Sessions_is_a_schedule sent_before sent_after :
  ∃ evs, final (Sessions sent_before sent_after) = serve evs ∧
         ∀ o, o ∈ called evs → o ∈ sent_before ++ sent_after.
Proof.
  unfold Sessions. rewrite final_bind.
  destruct (Next sent_before new_session) as [[] s|s] eqn:E.
  - apply Next_Done_steps in E. rewrite final_bind.
    destruct (Before s) as [[] s'|s'] eqn:Eb.
    + destruct (Next_final_steps sent_after s') as [k Hk].
      exists ((Call <$> sent_before) ++ [WriteHeader] ++ (Call <$> take k sent_after)).
      split.
      * unfold serve. rewrite foldl_app, E. simpl. by rewrite Eb.
      * unfold called. rewrite omap_app. simpl. fold (called (Call <$> sent_before))
          (called (Call <$> take k sent_after)). rewrite !called_Call.
        intros o [?|Ho]%elem_of_app; apply elem_of_app; [by left|right].
        by eapply subseteq_take.
    + exists ((Call <$> sent_before) ++ [WriteHeader]). split.
      * unfold serve. rewrite foldl_app, E. simpl. by rewrite Eb.
      * unfold called. rewrite omap_app. simpl. fold (called (Call <$> sent_before)).
        rewrite called_Call, app_nil_r. intros o ?. apply elem_of_app. by left.
  - destruct (Next_final_steps sent_before new_session) as [k Hk]. rewrite E in Hk.
    exists (Call <$> take k sent_before). split; [done|].
    rewrite called_Call. intros o Ho. apply elem_of_app. left.
    by eapply subseteq_take.
Qed.

Lemma save_loop_panics n l :
  n ∈ l →
  ∀ s, session.Written n s = true → resolve n s = None →
  ∃ s', forM_ l save_if_written s = Panic s'.
Proof.
  induction l as [|m l IH]; intros Hin s Hw Hr; [by apply not_elem_of_nil in Hin|].
  simpl. unfold mbind, M_bind.
  destruct (decide (m = n)) as [->|Hne].
  - unfold save_if_written, Save. unfold_M. rewrite Hw, Session_eq, Hr. by eexists.
  - destruct (save_if_written m s) as [[] t|t] eqn:E; [|by eexists].
    apply IH.
    + by apply elem_of_cons in Hin as [?|?].
    + pose proof (written_final_save_if_written m s) as Hwr. rewrite E in Hwr.
      unfold session.Written in *. simpl in Hwr. by rewrite Hwr.
    + assert (ss t !! n = ss s !! n) as Hss.
      { pose proof (ss_final_save_if_written m s) as Hs. rewrite E in Hs. simpl in Hs.
        destruct Hs as [-> | ->]; [by apply lookup_touch_ne|done]. }
      unfold resolve in *. by rewrite Hss.
Qed.

(** X20.  The hook panics whenever a written session of the loaded set has
    a nil handle that the store still answers with nil, as a [Flashes] that
    panicked on a nil handle and was recovered leaves it. *)
Theorem Before_panics_on_nil_written (s : session) (n : string) :
  session.Written n s = true →
  ss s !! n = Some None →
  (store_Get n).1 = None →
  ∃ s', Before s = Panic s'.
Proof.
  intros Hw Hn Hget. unfold Before. unfold mbind, M_bind, gets.
  apply (save_loop_panics n); [|done|].
  - apply elem_of_elements, elem_of_dom. by eexists.
  - unfold resolve. by rewrite Hn.
Qed.

End schedules.

(** * Concrete requests for the further properties *)


(** X2 at a store that refuses the name. *)
Lemma nil_handle_asked_again_witness :
  (@store_Get nilStore "app").1 = None ∧
  ss new_session !! "app" = None ∧
  ∃ s1 s2,
    @session.Session nilStore "app" new_session = Done None s1 ∧
    @session.Session nilStore "app" s1 = Done None s2 ∧
    ss s2 !! "app" = Some None ∧
    loads s2 = loads new_session ++ ["app"; "app"] ∧
    logger s2 =
      logger new_session ++
      match (@store_Get nilStore "app").2 with
      | Some e => [errorFormat e; errorFormat e]
      | None => []
      end.
Proof.
  split; [reflexivity|]. split; [reflexivity|].
  apply (@nil_handle_asked_again nilStore "app" new_session); reflexivity.
Defined.

(** X3 at a session that carries the key ["user"]. *)
Lemma Set_keeps_other_keys_witness :
  let s0 := final (@session.Session carryingStore "app" new_session) in
  @session.Session carryingStore "app" new_session = Done (Some carriedSession) s0 ∧
  KString "lang" ≠ KString "user" ∧
  ∃ s', @session.Set_ carryingStore "app" (KString "lang") (VString "en") new_session
          = Done tt s' ∧
        @session.Get carryingStore "app" (KString "user") s' =
          Done (default VNil (gorilla.Values carriedSession !! KString "user")) s'.
Proof.
  intros s0.
  assert (@session.Session carryingStore "app" new_session = Done (Some carriedSession) s0)
    as Hload by (vm_compute; reflexivity).
  assert (KString "lang" ≠ KString "user") as Hne by discriminate.
  split; [exact Hload|]. split; [exact Hne|].
  exact (@Set_keeps_other_keys carryingStore "app" (KString "lang") (KString "user")
           (VString "en") new_session s0 carriedSession Hload Hne).
Defined.

(** X4 at a new session. *)
Lemma Set_overwrites_witness :
  let s0 := final (@session.Session emptyStore "app" new_session) in
  @session.Session emptyStore "app" new_session = Done (Some gorilla.NewSession) s0 ∧
  ∃ s1 s2,
    @session.Set_ emptyStore "app" (KString "n") (VInt 1) new_session = Done tt s1 ∧
    @session.Set_ emptyStore "app" (KString "n") (VInt 2) s1 = Done tt s2 ∧
    @session.Set_ emptyStore "app" (KString "n") (VInt 2) new_session = Done tt s2 ∧
    @session.Get emptyStore "app" (KString "n") s2 = Done (VInt 2) s2.
Proof.
  intros s0.
  assert (@session.Session emptyStore "app" new_session =
          Done (Some gorilla.NewSession) s0) as Hload by (vm_compute; reflexivity).
  split; [exact Hload|].
  exact (@Set_overwrites emptyStore "app" (KString "n") (VInt 1) (VInt 2)
           new_session s0 gorilla.NewSession Hload).
Defined.

(** X5 at a session that carries the key ["user"]. *)
Lemma Delete_keeps_other_keys_witness :
  let s0 := final (@session.Session carryingStore "app" new_session) in
  @session.Session carryingStore "app" new_session = Done (Some carriedSession) s0 ∧
  KString "lang" ≠ KString "user" ∧
  ∃ s', @session.Delete carryingStore "app" (KString "lang") new_session = Done tt s' ∧
        @session.Get carryingStore "app" (KString "user") s' =
          Done (default VNil (gorilla.Values carriedSession !! KString "user")) s'.
Proof.
  intros s0.
  assert (@session.Session carryingStore "app" new_session = Done (Some carriedSession) s0)
    as Hload by (vm_compute; reflexivity).
  assert (KString "lang" ≠ KString "user") as Hne by discriminate.
  split; [exact Hload|]. split; [exact Hne|].
  exact (@Delete_keeps_other_keys carryingStore "app" (KString "lang") (KString "user")
           new_session s0 carriedSession Hload Hne).
Defined.


(** X7 at a new session. *)
Lemma Clear_without_keys_witness :
  let s0 := final (@session.Session emptyStore "app" new_session) in
  @session.Session emptyStore "app" new_session = Done (Some gorilla.NewSession) s0 ∧
  gorilla.Values gorilla.NewSession = ∅ ∧
  @session.Clear emptyStore "app" new_session = Done tt s0.
Proof.
  intros s0.
  assert (@session.Session emptyStore "app" new_session =
          Done (Some gorilla.NewSession) s0) as Hload by (vm_compute; reflexivity).
  split; [exact Hload|]. split; [reflexivity|].
  exact (@Clear_without_keys emptyStore "app" new_session s0 gorilla.NewSession
           Hload eq_refl).
Defined.

(** X8 at a session with two keys and a NaN entry, visited in the reverse
    of the order the model's range yields. *)
Lemma Clear_any_order_witness :
  let s0 := final (@session.Session basketStore "app" new_session) in
  let l := [NaN; Key (KString "lang"); Key (KString "user")] in
  @session.Session basketStore "app" new_session = Done (Some basketSession) s0 ∧
  l ≡ₚ go_range (gorilla.Values basketSession) ∧
  forM_ l (λ k, @session.Delete basketStore "app" k) s0 =
    @session.Clear basketStore "app" new_session.
Proof.
  intros s0 l.
  assert (@session.Session basketStore "app" new_session = Done (Some basketSession) s0)
    as Hload by (vm_compute; reflexivity).
  assert (go_range (gorilla.Values basketSession) =
          [Key (KString "user"); Key (KString "lang"); NaN]) as Hrange
    by (vm_compute; reflexivity).
  assert (l ≡ₚ go_range (gorilla.Values basketSession)) as Hperm.
  { rewrite Hrange. exact (reverse_Permutation [Key (KString "user"); Key (KString "lang"); NaN]). }
  split; [exact Hload|]. split; [exact Hperm|].
  exact (@Clear_any_order basketStore "app" l new_session s0 basketSession Hload Hperm).
Defined.

(** X9 at a session that carries a value. *)
Lemma Options_keeps_values_witness :
  let s0 := final (@session.Session carryingStore "app" new_session) in
  let o1 := {| Path := "/"; Domain := ""; MaxAge := 3600; Secure := true; HttpOnly := true |} in
  let o2 := {| Path := "/"; Domain := ""; MaxAge := -1; Secure := true; HttpOnly := true |} in
  @session.Session carryingStore "app" new_session = Done (Some carriedSession) s0 ∧
  ∃ s1 s2,
    @session.Options carryingStore "app" o1 new_session = Done tt s1 ∧
    @session.Get carryingStore "app" (KString "user") s1 =
      Done (default VNil (gorilla.Values carriedSession !! KString "user")) s1 ∧
    session.Written "app" s1 = session.Written "app" new_session ∧
    @session.Options carryingStore "app" o2 s1 = Done tt s2 ∧
    @session.Options carryingStore "app" o2 new_session = Done tt s2.
Proof.
  intros s0 o1 o2.
  assert (@session.Session carryingStore "app" new_session = Done (Some carriedSession) s0)
    as Hload by (vm_compute; reflexivity).
  split; [exact Hload|].
  exact (@Options_keeps_values carryingStore "app" (KString "user") o1 o2
           new_session s0 carriedSession Hload).
Defined.

(** X10 at a [Set] on a name the store refuses. *)
Lemma nil_handle_panics_witness :
  let o := OpSet "app" (KString "hello") (VString "world") in
  let s0 := final (@session.Session nilStore "app" new_session) in
  @session.Session nilStore (op_name o) new_session = Done None s0 ∧
  ss s0 !! op_name o = Some None ∧
  @exec nilStore o new_session = Panic s0.
Proof.
  intros o s0.
  assert (@session.Session nilStore (op_name o) new_session = Done None s0) as Hload
    by (vm_compute; reflexivity).
  split; [exact Hload|].
  exact (@nil_handle_panics nilStore o new_session s0 Hload).
Defined.

(** X11 at a session written by a [Set]. *)
Lemma Written_never_reset_witness :
  let s := final (@Next emptyStore [OpSet "app" (KString "hello") (VString "world")]
                     new_session) in
  let ops := [OpGet "app" (KString "hello"); OpClear "app"] in
  session.Written "app" s = true ∧
  session.Written "app" (final (@Next emptyStore ops s)) = true ∧
  session.Written "app" (final (@Before emptyStore s)) = true.
Proof.
  intros s ops.
  assert (session.Written "app" s = true) as Hw by (vm_compute; reflexivity).
  split; [exact Hw|].
  exact (@Written_never_reset emptyStore "app" ops s Hw).
Defined.

(** X12 at a request that refers to one session twice. *)
Lemma loads_once_per_name_witness :
  let sent_before := [OpSet "app" (KString "hello") (VString "world")] in
  let sent_after := [OpGet "app" (KString "hello")] in
  let u := final (@Sessions emptyStore sent_before sent_after) in
  @Sessions emptyStore sent_before sent_after = Done tt u ∧
  load_count "app" u =
    if decide ("app" ∈ op_names (sent_before ++ sent_after)) then 1 else 0.
Proof.
  intros sent_before sent_after u.
  assert (@Sessions emptyStore sent_before sent_after = Done tt u) as Hrun
    by (vm_compute; reflexivity).
  split; [exact Hrun|].
  exact (@loads_once_per_name emptyStore sent_before sent_after u "app" Hrun).
Defined.

(** X13 at a request that sets a key before the response is sent. *)
Lemma Before_persists_current_handles_witness :
  let sent_before := [OpSet "app" (KString "hello") (VString "world")] in
  let s := final (@Next emptyStore sent_before new_session) in
  @Next emptyStore sent_before new_session = Done tt s ∧
  ∃ s', @Before emptyStore s = Done tt s' ∧
        ss s' = ss s ∧ written s' = written s ∧
        calls s' = calls s ++ saves s (elements (dom (ss s))) ∧
        logger s' =
          logger s ++ omap (@call_error emptyStore) (saves s (elements (dom (ss s)))) ∧
        ∀ n h, Persist n h ∈ saves s (elements (dom (ss s))) ↔
               ss s !! n = Some (Some h) ∧ session.Written n s = true.
Proof.
  intros sent_before s.
  assert (@Next emptyStore sent_before new_session = Done tt s) as Hrun
    by (vm_compute; reflexivity).
  split; [exact Hrun|].
  exact (@Before_persists_current_handles emptyStore sent_before s Hrun).
Defined.

(** X14 at a request that writes two sessions, saved in the other order. *)
Lemma Before_any_order_witness :
  let sent_before := [OpSet "app" (KString "hello") (VString "world");
                      OpSet "lang" (KString "code") (VString "en")] in
  let s := final (@Next emptyStore sent_before new_session) in
  let l := ["lang"; "app"] in
  @Next emptyStore sent_before new_session = Done tt s ∧
  l ≡ₚ elements (dom (ss s)) ∧
  ∃ s1 s2,
    forM_ l (@save_if_written emptyStore) s = Done tt s1 ∧
    @Before emptyStore s = Done tt s2 ∧
    ss s1 = ss s2 ∧ written s1 = written s2 ∧
    calls s1 ≡ₚ calls s2 ∧ logger s1 ≡ₚ logger s2 ∧
    persisted s1 ≡ₚ persisted s2.
Proof.
  intros sent_before s l.
  assert (@Next emptyStore sent_before new_session = Done tt s) as Hrun
    by (vm_compute; reflexivity).
  assert (elements (dom (ss s)) = ["app"; "lang"]) as Hel by (vm_compute; reflexivity).
  assert (l ≡ₚ elements (dom (ss s))) as Hperm by (rewrite Hel; apply perm_swap).
  split; [exact Hrun|]. split; [exact Hperm|].
  exact (@Before_any_order emptyStore sent_before s l Hrun Hperm).
Defined.

(** X16 at a [Set] made after an earlier run of the hook. *)
Lemma change_persisted_by_next_hook_witness :
  let o := OpSet "app" (KString "hello") (VString "world") in
  let ops := [OpGet "lang" (KString "code"); o] in
  let s := final (@Before emptyStore
                    (final (@Next emptyStore [OpSet "lang" (KString "code") (VString "en")]
                              new_session))) in
  let s1 := final (@Next emptyStore ops s) in
  nonnil s ∧
  @Next emptyStore ops s = Done tt s1 ∧
  o ∈ ops ∧
  mutating o = true ∧
  (∀ n, o ≠ OpClear n) ∧
  ∃ s' l, @Before emptyStore s1 = Done tt s' ∧
          persisted s' = persisted s1 ++ l ∧
          op_name o ∈ l ∧ NoDup l ∧ nonnil s'.
Proof.
  intros o ops s s1.
  assert (nonnil s) as Hnn.
  { intros m. assert (ss s = {[ "lang" := Some (gorilla.with_Values
                (go_assign (KString "code") (VString "en")) gorilla.NewSession) ]}) as ->
      by (vm_compute; reflexivity).
    intros [[= <-] [=]]%lookup_singleton_Some. }
  assert (@Next emptyStore ops s = Done tt s1) as Hrun by (vm_compute; reflexivity).
  assert (o ∈ ops) as Ho by (apply list_elem_of_further, list_elem_of_here).
  assert (∀ n, o ≠ OpClear n) as Hclear by discriminate.
  split; [exact Hnn|]. split; [exact Hrun|]. split; [exact Ho|].
  split; [reflexivity|]. split; [exact Hclear|].
  exact (@change_persisted_by_next_hook emptyStore ops s s1 o Hnn Hrun Ho eq_refl Hclear).
Defined.

(** X17 at a store that never fails. *)
Lemma log_holds_store_errors_witness :
  let sent_before := [OpSet "app" (KString "hello") (VString "world")] in
  (∀ n, (@store_Get emptyStore n).2 = None) ∧
  (∀ n h, @store_Save emptyStore n h = None) ∧
  logger (final (@Sessions emptyStore sent_before [])) = [].
Proof.
  intros sent_before.
  assert (∀ n, (@store_Get emptyStore n).2 = None) as Hget by reflexivity.
  assert (∀ n h, @store_Save emptyStore n h = None) as Hsave by reflexivity.
  split; [exact Hget|]. split; [exact Hsave|].
  exact (proj2 (@log_holds_store_errors emptyStore sent_before []) Hget Hsave).
Defined.

(** X18 at a session that already holds two keys and a NaN entry. *)
Lemma NaN_key_out_of_reach_witness :
  let s0 := final (@session.Session basketStore "app" new_session) in
  @session.Session basketStore "app" new_session = Done (Some basketSession) s0 ∧
  ∃ s1 h1,
    @session.Set_ basketStore "app" NaN (VString "x") new_session = Done tt s1 ∧
    ss s1 !! "app" = Some (Some h1) ∧
    go_range (gorilla.Values h1) = go_range (gorilla.Values basketSession) ++ [NaN] ∧
    @session.Get basketStore "app" NaN s1 = Done VNil s1 ∧
    (∀ k : key, @session.Get basketStore "app" k s1 =
                Done (default VNil (gorilla.Values basketSession !! k)) s1) ∧
    @session.Delete basketStore "app" NaN s1 = Done tt s1.
Proof.
  intros s0.
  assert (@session.Session basketStore "app" new_session = Done (Some basketSession) s0)
    as Hload by (vm_compute; reflexivity).
  split; [exact Hload|].
  exact (@NaN_key_out_of_reach basketStore "app" (VString "x") new_session s0
           basketSession Hload).
Defined.



(** X20 at the state a [Flashes] that panicked on a nil handle leaves. *)
Lemma Before_panics_on_nil_written_witness :
  let s := final (@session.Flashes nilStore "app" [] new_session) in
  session.Written "app" s = true ∧
  ss s !! "app" = Some None ∧
  (@store_Get nilStore "app").1 = None ∧
  ∃ s', @Before nilStore s = Panic s'.
Proof.
  intros s.
  assert (session.Written "app" s = true) as Hw by (vm_compute; reflexivity).
  assert (ss s !! "app" = Some None) as Hn by (vm_compute; reflexivity).
  split; [exact Hw|]. split; [exact Hn|]. split; [reflexivity|].
  exact (@Before_panics_on_nil_written nilStore s "app" Hw Hn eq_refl).
Defined.
